(** * Branch instrumentation of pynguin (wspy), embedded in Rocq

    Source: [pynguin/generation/algorithms/wspy/branch_instrumentation.py].

    The class [BranchInstrumentation] rewrites the byte code of Python
    functions: it walks the instruction list of a code object with a
    [ListIterator], inserts a "function entered" probe in front of the
    first instruction and a predicate probe in front of every conditional
    jump, and does so recursively for the code objects nested in the
    constant pool.  The entry point [instrument] walks the members of an
    object and instruments every function it finds.

    The embedding is shallow: Python objects that are mutated in place
    (the instrumentation object, function objects, global namespaces, the
    tracer) live in an explicit [State]; exceptions are an [outcome]. *)

From Stdlib Require Import ZArith Lia.
From stdpp Require Import gmap strings list fin_maps sorting.

Local Open Scope string_scope.
Local Open Scope list_scope.
Local Open Scope Z_scope.

(** ** Python values, as far as the instrumentation handles them *)

(** The comparison operators of the [bytecode] library ([bytecode.Compare]),
    the argument of a [COMPARE_OP] instruction. *)
Inductive Compare : Type :=
  | LT | LE | EQ | NE | GT | GE | IN | NOT_IN | IS | IS_NOT | EXC_MATCH.

(** Arguments of instructions and entries of constant pools.  [PUnset] is
    the [UNSET] marker of an instruction without argument; [POpaque]
    stands for every other Python object, by identity. *)
Inductive PyVal : Type :=
  | PUnset
  | PNone
  | PBool (b : bool)
  | PInt (n : Z)
  | PStr (s : string)
  | PCompare (c : Compare)
  | PLabel (l : nat)
  | POpaque (id : nat).

(** ** The abstract byte code of the [bytecode] library *)

Module Bytecode.

(** [bytecode.Instr]: an operation name and its argument. *)
Record Instr : Type := mkInstr { name : string; arg : PyVal }.

(** What [Bytecode.from_code] yields: instructions, and the pseudo
    instructions [Label] and [SetLineno], which are not [Instr]. *)
Inductive Elem : Type :=
  | EInstr (i : Instr)
  | ELabel (l : nat)
  | ESetLineno (lineno : Z).

(** [Instr.is_cond_jump] of the library tests whether the operation name
    contains [JUMP_IF_] (POP_JUMP_IF_TRUE, JUMP_IF_FALSE_OR_POP, ...). *)
Definition name_is_cond_jump (i : Instr) : bool :=
  match String.index 0 "JUMP_IF_" (name i) with
  | Some _ => true
  | None => false
  end.

End Bytecode.
Export Bytecode.

(** [Instr("NAME")] and [Instr("NAME", arg)] as list elements. *)
Definition I0 (n : string) : Elem := EInstr (mkInstr n PUnset).
Definition I1 (n : string) (a : PyVal) : Elem := EInstr (mkInstr n a).

(** A code object ([types.CodeType]): the constant pool [co_consts], whose
    entries may be code objects again, and the instructions.  The
    instructions are kept in the abstract form of the [bytecode] library:
    [Bytecode.from_code] reads them and [to_code] stores them back.  An
    instruction that loads an entry of the pool names it by a [PyVal]; that
    the library hands the rewritten entry to such an instruction is not
    part of the model.  The pool of a result is the one given to
    [code.replace]; how [to_code] lays out the pool of the code object it
    assembles is the library's matter and not part of the model either. *)
Inductive Code : Type :=
  | mkCode (co_consts : list Const) (co_code : list Elem)
with Const : Type :=
  | CCode (c : Code)
  | CValue (v : PyVal).

Definition co_consts (c : Code) : list Const :=
  match c with mkCode cs _ => cs end.
Definition co_code (c : Code) : list Elem :=
  match c with mkCode _ instrs => instrs end.

(** ** Python list indexing *)

Module PyList.
Section PyList.
Context {A : Type}.

(** [l[i]]: a negative index counts from the end; out of range is an
    IndexError ([None]). *)
Definition getitem (l : list A) (i : Z) : option A :=
  let n := Z.of_nat (length l) in
  if 0 <=? i then l !! Z.to_nat i
  else if - n <=? i then l !! Z.to_nat (n + i)
  else None.

(** The position a slice bound [i] denotes in a list of length [n]:
    negative bounds count from the end, and bounds are clamped. *)
Definition slice_bound (n : nat) (i : Z) : nat :=
  if i <? 0 then Z.to_nat (Z.max 0 (Z.of_nat n + i))
  else Z.to_nat (Z.min i (Z.of_nat n)).

(** [l[i:i] = ins]: insertion of [ins] at position [i]. *)
Definition insert_slice (l : list A) (i : Z) (ins : list A) : list A :=
  let p := slice_bound (length l) i in
  take p l ++ ins ++ drop p l.

End PyList.
End PyList.

(** ** The list iterator *)

Module ListIterator.

(** Modelled from the spec: [pynguin.utils.iterator.ListIterator] is not
    among the sources.  Section 4.1 of the specification describes it as
    a cursor over a mutable sequence, kept as an index into the list:
    [next] moves forward and tells whether an element remains,
    [current] is the element under the cursor, [has_previous] tells
    whether an element lies before the current one, [previous] is that
    element, and [insert_before] splices a list in front of the current
    element, or [offset] positions further back, and moves the index so
    that the current element stays current and the inserted elements are
    not visited.  The index starts in front of the first element. *)
Record t : Type := mk { _to_iterate : list Elem; _idx : Z }.

Definition init (to_iterate : list Elem) : t :=
  {| _to_iterate := to_iterate; _idx := -1 |}.

Definition next (it : t) : bool * t :=
  if _idx it + 1 <? Z.of_nat (length (_to_iterate it))
  then (true, {| _to_iterate := _to_iterate it; _idx := _idx it + 1 |})
  else (false, it).

Definition current (it : t) : option Elem :=
  PyList.getitem (_to_iterate it) (_idx it).

Definition has_previous (it : t) : bool := 0 <? _idx it.

Definition previous (it : t) : option Elem :=
  PyList.getitem (_to_iterate it) (_idx it - 1).

Definition insert_before (it : t) (insert : list Elem) (offset : Z) : t :=
  {| _to_iterate := PyList.insert_slice (_to_iterate it) (_idx it - offset) insert;
     _idx := _idx it + Z.of_nat (length insert) |}.

End ListIterator.

Abbreviation ListIterator := ListIterator.t.

(** ** The state of the Python program *)

(** References to heap objects. *)
Abbreviation ref := nat.

(** A function object: its attribute dictionary ([setattr], [hasattr]), a
    reference to the global namespace it was defined in ([__globals__],
    shared by the functions of a module) and its code. *)
Record FunctionObj : Type := mkFunction {
  fn_dict : gmap string PyVal;
  fn_globals : ref;
  fn_code : Code
}.

(** What the instrumentation does to the world around it, in program
    order: calls of the tracer's registration methods, calls of
    [inspect.getmembers], and writes to function objects and namespaces. *)
Inductive Event : Type :=
  | predicate_exists (predicate_id : Z)
  | function_exists (function_id : Z)
  | getmembers_of (obj : ref)
  | set_attribute (f : ref) (attr : string)
  | set_global (namespace : ref) (key : string)
  | set_code (f : ref).

(** The fields of the [BranchInstrumentation] object, the heap of
    function objects and namespaces, and the trace of events. *)
Record State : Type := mkState {
  _predicate_id : Z;
  _function_id : Z;
  _tracer : PyVal;
  functions : gmap ref FunctionObj;
  namespaces : gmap ref (gmap string PyVal);
  trace : list Event
}.

(** [BranchInstrumentation.__init__], on a given heap. *)
Definition __init__ (tracer : PyVal)
    (fs : gmap ref FunctionObj) (ns : gmap ref (gmap string PyVal)) : State :=
  {| _predicate_id := 0; _function_id := 0; _tracer := tracer;
     functions := fs; namespaces := ns; trace := [] |}.

Definition with_predicate_id (n : Z) (st : State) : State :=
  {| _predicate_id := n; _function_id := _function_id st;
     _tracer := _tracer st; functions := functions st;
     namespaces := namespaces st; trace := trace st |}.

Definition with_function_id (n : Z) (st : State) : State :=
  {| _predicate_id := _predicate_id st; _function_id := n;
     _tracer := _tracer st; functions := functions st;
     namespaces := namespaces st; trace := trace st |}.

Definition with_functions (fs : gmap ref FunctionObj) (st : State) : State :=
  {| _predicate_id := _predicate_id st; _function_id := _function_id st;
     _tracer := _tracer st; functions := fs;
     namespaces := namespaces st; trace := trace st |}.

Definition with_namespaces (ns : gmap ref (gmap string PyVal)) (st : State) : State :=
  {| _predicate_id := _predicate_id st; _function_id := _function_id st;
     _tracer := _tracer st; functions := functions st;
     namespaces := ns; trace := trace st |}.

Definition with_event (e : Event) (st : State) : State :=
  {| _predicate_id := _predicate_id st; _function_id := _function_id st;
     _tracer := _tracer st; functions := functions st;
     namespaces := namespaces st; trace := trace st ++ [e] |}.

(** ** Exceptions and the monad of the embedding *)

(** [AssertionError], [IndexError] and [AttributeError] are Python's.
    The other two are not Python exceptions: [DanglingRef] marks a
    reference to a function object or namespace that the heap of the model
    does not hold (Python has no such references), [OutOfFuel] a run of the
    model that was given too little fuel for a loop or a recursion. *)
Inductive exn : Type :=
  | AssertionError | IndexError | AttributeError | DanglingRef | OutOfFuel.

Inductive outcome (A : Type) : Type :=
  | Ret (a : A)
  | Raise (e : exn).
Arguments Ret {A} a.
Arguments Raise {A} e.

(** A computation changes the state and returns or raises; what it did to
    the state before raising stays done. *)
Definition M (A : Type) : Type := State → outcome A * State.

Definition ret {A} (a : A) : M A := λ st, (Ret a, st).
Definition raise {A} (e : exn) : M A := λ st, (Raise e, st).
Definition bind {A B} (m : M A) (k : A → M B) : M B :=
  λ st, match m st with
        | (Ret a, st') => k a st'
        | (Raise e, st') => (Raise e, st')
        end.
Definition gets {A} (f : State → A) : M A := λ st, (Ret (f st), st).
Definition modify (f : State → State) : M unit := λ st, (Ret tt, f st).
Definition emit (e : Event) : M unit := modify (with_event e).
Definition or_raise {A} (e : exn) (o : option A) : M A :=
  match o with Some a => ret a | None => raise e end.

Notation "'let*' x ':=' m 'in' k" := (bind m (λ x, k))
  (at level 10, x name, m at level 100, k at level 200, only parsing).
Notation "'let*' ' p ':=' m 'in' k" := (bind m (λ x, match x with p => k end))
  (at level 10, p pattern, m at level 100, k at level 200, only parsing).

(** ** The probes *)

Definition _INSTRUMENTED_FLAG : string := "instrumented".
Definition _TRACER_NAME : string := "tracer".

(** The [__name__] of the tracer's methods. *)
Definition passed_bool_predicate : string := "passed_bool_predicate".
Definition passed_cmp_predicate : string := "passed_cmp_predicate".
Definition entered_function : string := "entered_function".

(** The [stmts] of [_add_bool_predicate]. *)
Definition bool_predicate_stmts (predicate_id : Z) : list Elem :=
  [ I0 "DUP_TOP";
    I1 "LOAD_GLOBAL" (PStr _TRACER_NAME);
    I1 "LOAD_METHOD" (PStr passed_bool_predicate);
    I0 "ROT_THREE";
    I0 "ROT_THREE";
    I1 "LOAD_CONST" (PInt predicate_id);
    I1 "CALL_METHOD" (PInt 2);
    I0 "POP_TOP" ].

(** The [stmts] of [_add_cmp_predicate]; [cmp_op_arg] is the argument of
    the comparison instruction. *)
Definition cmp_predicate_stmts (predicate_id : Z) (cmp_op_arg : PyVal) : list Elem :=
  [ I0 "DUP_TOP_TWO";
    I1 "LOAD_GLOBAL" (PStr _TRACER_NAME);
    I1 "LOAD_METHOD" (PStr passed_cmp_predicate);
    I0 "ROT_FOUR";
    I0 "ROT_FOUR";
    I1 "LOAD_CONST" (PInt predicate_id);
    I1 "LOAD_CONST" cmp_op_arg;
    I1 "CALL_METHOD" (PInt 4);
    I0 "POP_TOP" ].

(** The [stmts] of [_add_function_entered]. *)
Definition function_entered_stmts (function_id : Z) : list Elem :=
  [ I1 "LOAD_GLOBAL" (PStr _TRACER_NAME);
    I1 "LOAD_METHOD" (PStr entered_function);
    I1 "LOAD_CONST" (PInt function_id);
    I1 "CALL_METHOD" (PInt 1);
    I0 "POP_TOP" ].

Definition _add_bool_predicate (iterator : ListIterator) : M ListIterator :=
  let* pid := gets _predicate_id in
  let* _ := emit (predicate_exists pid) in
  let stmts := bool_predicate_stmts pid in
  let iterator := ListIterator.insert_before iterator stmts 0 in
  let* _ := modify (with_predicate_id (pid + 1)) in
  ret iterator.

(** [cmp_op.arg]: labels and line numbers have no attribute [arg]. *)
Definition arg_of (cmp_op : Elem) : M PyVal :=
  match cmp_op with
  | EInstr i => ret (arg i)
  | _ => raise AttributeError
  end.

(** The arguments of the [Instr] constructors are evaluated while the list
    [stmts] is built, after the call of [predicate_exists]. *)
Definition _add_cmp_predicate (iterator : ListIterator) : M ListIterator :=
  let* cmp_op := or_raise IndexError (ListIterator.previous iterator) in
  let* pid := gets _predicate_id in
  let* _ := emit (predicate_exists pid) in
  let* cmp_op_arg := arg_of cmp_op in
  let stmts := cmp_predicate_stmts pid cmp_op_arg in
  let iterator := ListIterator.insert_before iterator stmts 1 in
  let* _ := modify (with_predicate_id (pid + 1)) in
  ret iterator.

Definition _add_function_entered (iterator : ListIterator) : M ListIterator :=
  let* fid := gets _function_id in
  let* _ := emit (function_exists fid) in
  let stmts := function_entered_stmts fid in
  let iterator := ListIterator.insert_before iterator stmts 0 in
  let* _ := modify (with_function_id (fid + 1)) in
  ret iterator.

(** ** The walk over one code object *)

Section Walker.

(** [Instr.is_cond_jump] belongs to the [bytecode] library; the walk is
    the same for every such classification of instructions. *)
Variable is_cond_jump : Instr → bool.

(** The condition
    [code_iter.has_previous() and isinstance(code_iter.previous(), Instr)
     and code_iter.previous().name == "COMPARE_OP"];
    [and] evaluates its right operand only if the left one is true.
    The two calls of [previous] read the same element, nothing changes
    in between. *)
Definition previous_is_compare_op (code_iter : ListIterator) : M bool :=
  if ListIterator.has_previous code_iter then
    let* prev := or_raise IndexError (ListIterator.previous code_iter) in
    match prev with
    | EInstr p => ret (String.eqb (name p) "COMPARE_OP")
    | _ => ret false
    end
  else ret false.

(** The body of the [while] loop after the function-entered probe:
    [current = code_iter.current()] and the [if] on it. *)
Definition visit_current (code_iter : ListIterator) : M ListIterator :=
  let* current := or_raise IndexError (ListIterator.current code_iter) in
  match current with
  | EInstr i =>
      if is_cond_jump i then
        let* cmp := previous_is_compare_op code_iter in
        if cmp then _add_cmp_predicate code_iter
        else _add_bool_predicate code_iter
      else ret code_iter
  | _ => ret code_iter
  end.

(** [while code_iter.next(): ...], one unit of fuel per iteration. *)
Fixpoint walk (fuel : nat) (function_entered_inserted : bool)
    (code_iter : ListIterator) : M ListIterator :=
  match fuel with
  | O => raise OutOfFuel
  | S fuel =>
      match ListIterator.next code_iter with
      | (false, code_iter) => ret code_iter
      | (true, code_iter) =>
          let* code_iter :=
            if negb function_entered_inserted
            then _add_function_entered code_iter
            else ret code_iter in
          let* code_iter := visit_current code_iter in
          walk fuel true code_iter
      end
  end.

(** Lines 61 to 78 of the source: the pass over the instructions of one
    code object.  Every iteration consumes one of the original
    instructions, so their number bounds the number of iterations. *)
Definition instrument_instructions (instructions : list Elem) : M (list Elem) :=
  let code_iter := ListIterator.init instructions in
  let* code_iter := walk (S (length instructions)) false code_iter in
  ret (ListIterator._to_iterate code_iter).

(** The loop [for const in code.co_consts] of
    [_instrument_code_recursive]; [recurse] is the recursive call. *)
Definition for_consts (recurse : Code → M Code) : list Const → M (list Const) :=
  fix for_consts (consts : list Const) : M (list Const) :=
    match consts with
    | [] => ret []
    | CCode inner :: consts =>
        let* inner := recurse inner in
        let* new_consts := for_consts consts in
        ret (CCode inner :: new_consts)
    | CValue v :: consts =>
        let* new_consts := for_consts consts in
        ret (CValue v :: new_consts)
    end.

(** [_instrument_code_recursive]: the nested code objects of the
    constant pool first and in order, then the instructions of the code
    object itself. *)
Fixpoint _instrument_code_recursive (code : Code) : M Code :=
  match code with
  | mkCode consts instructions =>
      let* new_consts := for_consts _instrument_code_recursive consts in
      let* instructions := instrument_instructions instructions in
      ret (mkCode new_consts instructions)
  end.

(** ** Functions *)

(** [instrument_function]: the assertion, the flag, the tracer in the
    globals of the function, and the new code. *)
Definition instrument_function (to_instrument : ref) : M unit :=
  let* fn := λ st, or_raise DanglingRef (functions st !! to_instrument) st in
  match fn_dict fn !! _INSTRUMENTED_FLAG with
  | Some _ => raise AssertionError
  | None =>
      let fn := {| fn_dict := <[_INSTRUMENTED_FLAG := PBool true]> (fn_dict fn);
                   fn_globals := fn_globals fn; fn_code := fn_code fn |} in
      let* _ := modify (λ st, with_functions (<[to_instrument := fn]> (functions st)) st) in
      let* _ := emit (set_attribute to_instrument _INSTRUMENTED_FLAG) in
      let* globals := λ st, or_raise DanglingRef (namespaces st !! fn_globals fn) st in
      let* tracer := gets _tracer in
      let* _ := modify (λ st, with_namespaces
                   (<[fn_globals fn := <[_TRACER_NAME := tracer]> globals]> (namespaces st)) st) in
      let* _ := emit (set_global (fn_globals fn) _TRACER_NAME) in
      let* code := _instrument_code_recursive (fn_code fn) in
      let fn := {| fn_dict := fn_dict fn; fn_globals := fn_globals fn; fn_code := code |} in
      let* _ := modify (λ st, with_functions (<[to_instrument := fn]> (functions st)) st) in
      emit (set_code to_instrument)
  end.

(** ** Objects and their members *)

(** What [instrument] asks of the [inspect] module of the standard
    library: the members of an object, and the kind of a value. *)
Record Inspect : Type := mkInspect {
  getmembers : ref → list (string * ref);
  isfunction : ref → bool;
  isclass : ref → bool;
  ismethod : ref → bool
}.

Variable inspect : Inspect.

(** The loop [for (_, value) in members] of [instrument]; [recurse] is
    the recursive call, [seen] the content of the shared set. *)
Definition for_members (recurse : ref → option (gset ref) → M (gset ref))
    : list (string * ref) → gset ref → M (gset ref) :=
  fix for_members (members : list (string * ref)) (seen : gset ref) : M (gset ref) :=
    match members with
    | [] => ret seen
    | (_, value) :: members =>
        let* _ :=
          if isfunction inspect value
          then instrument_function value
          else ret tt in
        let* seen :=
          if isclass inspect value || ismethod inspect value
          then recurse value (Some seen)
          else ret seen in
        for_members members seen
    end.

(** [instrument(obj, seen)].  The argument [seen] is [None] or a set; an
    empty set counts as false in [if not seen], as [None] does, and is
    then replaced by a new set.  The set is mutated in place, so the
    result is the content, after the call, of the set that was passed
    (empty if none was).  One unit of fuel per nested call. *)
Fixpoint instrument (fuel : nat) (obj : ref) (seen : option (gset ref))
    : M (gset ref) :=
  match fuel with
  | O => raise OutOfFuel
  | S fuel =>
      let not_seen :=
        match seen with
        | None => true
        | Some s => bool_decide (s = ∅)
        end in
      let seen := if not_seen then ∅ else default ∅ seen in
      if bool_decide (obj ∈ seen) then ret seen
      else
        let seen := {[obj]} ∪ seen in
        let* _ := emit (getmembers_of obj) in
        let members := getmembers inspect obj in
        let* seen := for_members (instrument fuel) members seen in
        ret (if not_seen then ∅ else seen)
  end.

End Walker.

(** ** The evaluation stack of the interpreter *)

(** The instructions of the probes run on CPython's stack machine.  The
    stack effects below are those of CPython 3.8 for the operations the
    probes use, and for loads, comparisons and popping jumps, which the
    examples need; [None] for every other operation. *)
Module Stack.

(** [dis.stack_effect]. *)
Definition stack_effect (i : Instr) : option Z :=
  let n := name i in
  if String.eqb n "POP_TOP" then Some (-1)
  else if String.eqb n "ROT_TWO" then Some 0
  else if String.eqb n "ROT_THREE" then Some 0
  else if String.eqb n "ROT_FOUR" then Some 0
  else if String.eqb n "DUP_TOP" then Some 1
  else if String.eqb n "DUP_TOP_TWO" then Some 2
  else if String.eqb n "LOAD_CONST" then Some 1
  else if String.eqb n "LOAD_FAST" then Some 1
  else if String.eqb n "LOAD_NAME" then Some 1
  else if String.eqb n "LOAD_GLOBAL" then Some 1
  else if String.eqb n "LOAD_METHOD" then Some 1
  else if String.eqb n "COMPARE_OP" then Some (-1)
  else if String.eqb n "POP_JUMP_IF_FALSE" then Some (-1)
  else if String.eqb n "POP_JUMP_IF_TRUE" then Some (-1)
  else if String.eqb n "CALL_METHOD" then
    match arg i with
    | PInt argc => if 0 <=? argc then Some (- argc - 1) else None
    | _ => None
    end
  else None.

(** The change of the stack depth over a sequence; labels and line
    numbers do not touch the stack. *)
Fixpoint net_stack_effect (l : list Elem) : option Z :=
  match l with
  | [] => Some 0
  | EInstr i :: l =>
      match stack_effect i, net_stack_effect l with
      | Some d, Some r => Some (d + r)
      | _, _ => None
      end
  | _ :: l => net_stack_effect l
  end.

(** Symbolic values: what a load pushed, a method looked up on an
    object, the result of the n-th call, the result of a comparison. *)
Inductive SVal : Type :=
  | SLoad (op : string) (a : PyVal)
  | SMethod (obj : SVal) (method_name : PyVal)
  | SResult (call : nat)
  | SCompare (op : PyVal) (lhs rhs : SVal).

(** A method call: the method, its receiver and the positional
    arguments, first argument first. *)
Record Call : Type := mkCall {
  call_method : SVal;
  call_self : SVal;
  call_args : list SVal
}.

(** The stack, top first, and the calls made so far. *)
Record VM : Type := mkVM { stack : list SVal; calls : list Call }.

Definition exec_instr (i : Instr) (vm : VM) : option VM :=
  let n := name i in
  let s := stack vm in
  let keep s := Some {| stack := s; calls := calls vm |} in
  if String.eqb n "POP_TOP" then
    match s with x :: s => keep s | _ => None end
  else if String.eqb n "ROT_TWO" then
    match s with x :: y :: s => keep (y :: x :: s) | _ => None end
  else if String.eqb n "ROT_THREE" then
    match s with x :: y :: z :: s => keep (y :: z :: x :: s) | _ => None end
  else if String.eqb n "ROT_FOUR" then
    match s with x :: y :: z :: w :: s => keep (y :: z :: w :: x :: s) | _ => None end
  else if String.eqb n "DUP_TOP" then
    match s with x :: s => keep (x :: x :: s) | _ => None end
  else if String.eqb n "DUP_TOP_TWO" then
    match s with x :: y :: s => keep (x :: y :: x :: y :: s) | _ => None end
  else if String.eqb n "LOAD_CONST" || String.eqb n "LOAD_FAST"
          || String.eqb n "LOAD_NAME" || String.eqb n "LOAD_GLOBAL" then
    keep (SLoad n (arg i) :: s)
  else if String.eqb n "LOAD_METHOD" then
    (* the method goes below the object it was looked up on *)
    match s with obj :: s => keep (obj :: SMethod obj (arg i) :: s) | _ => None end
  else if String.eqb n "COMPARE_OP" then
    match s with rhs :: lhs :: s => keep (SCompare (arg i) lhs rhs :: s) | _ => None end
  else if String.eqb n "POP_JUMP_IF_FALSE" || String.eqb n "POP_JUMP_IF_TRUE" then
    match s with x :: s => keep s | _ => None end
  else if String.eqb n "CALL_METHOD" then
    match arg i with
    | PInt argc =>
        if 0 <=? argc then
          let k := Z.to_nat argc in
          match drop k s with
          | self :: method :: s' =>
              Some {| stack := SResult (length (calls vm)) :: s';
                      calls := calls vm ++ [ {| call_method := method;
                                                call_self := self;
                                                call_args := reverse (take k s) |} ] |}
          | _ => None
          end
        else None
    | _ => None
    end
  else None.

(** Straight-line execution: jumps fall through. *)
Fixpoint exec (l : list Elem) (vm : VM) : option VM :=
  match l with
  | [] => Some vm
  | EInstr i :: l =>
      match exec_instr i vm with
      | Some vm => exec l vm
      | None => None
      end
  | _ :: l => exec l vm
  end.

End Stack.

(** The tracer, as its name is looked up by the probes. *)
Definition tracer_global : Stack.SVal :=
  Stack.SLoad "LOAD_GLOBAL" (PStr _TRACER_NAME).

(** The call of a method of the tracer. *)
Definition tracer_call (method : string) (args : list Stack.SVal) : Stack.Call :=
  {| Stack.call_method := Stack.SMethod tracer_global (PStr method);
     Stack.call_self := tracer_global;
     Stack.call_args := args |}.

(** ** The result of the walk, written over the original instructions *)

Section Weave.

Variable is_cond_jump : Instr → bool.

(** [isinstance(e, Instr) and e.is_cond_jump()]. *)
Definition is_cond_jump_elem (e : Elem) : bool :=
  match e with
  | EInstr i => is_cond_jump i
  | _ => false
  end.

(** [isinstance(e, Instr) and e.name == "COMPARE_OP"]. *)
Definition is_compare_op (e : Elem) : bool :=
  match e with
  | EInstr i => String.eqb (name i) "COMPARE_OP"
  | _ => false
  end.

(** The argument of an instruction. *)
Definition elem_arg (e : Elem) : PyVal :=
  match e with
  | EInstr i => arg i
  | _ => PUnset
  end.

(** The number [k] of conditional jumps of a sequence. *)
Definition count_cond_jumps (l : list Elem) : nat :=
  length (filter (λ e, is_cond_jump_elem e = true) l).

(** What the walk makes of [pending :: rest], when [pending] has been
    visited and [rest] has not: a conditional jump at the head of [rest]
    puts a comparison probe in front of [pending], if that is a
    comparison, and a boolean probe between the two otherwise. *)
Fixpoint weave (predicate_id : Z) (pending : Elem) (rest : list Elem) : list Elem :=
  match rest with
  | [] => [pending]
  | e :: rest =>
      if is_cond_jump_elem e then
        if is_compare_op pending
        then cmp_predicate_stmts predicate_id (elem_arg pending)
               ++ pending :: weave (predicate_id + 1) e rest
        else pending :: bool_predicate_stmts predicate_id
               ++ weave (predicate_id + 1) e rest
      else pending :: weave predicate_id e rest
  end.

(** The instrumented instructions: nothing for no instructions; else the
    function-entered probe, whose last instruction is the element in
    front of the first original instruction. *)
Definition instrumented (function_id predicate_id : Z) (l : list Elem) : list Elem :=
  match l with
  | [] => []
  | _ => take 4 (function_entered_stmts function_id)
           ++ weave predicate_id (I0 "POP_TOP") l
  end.

End Weave.

(** A predicate probe with a given identifier, of either kind. *)
Inductive predicate_probe (predicate_id : Z) : list Elem → Prop :=
  | bool_probe :
      predicate_probe predicate_id (bool_predicate_stmts predicate_id)
  | cmp_probe (cmp_op_arg : PyVal) :
      predicate_probe predicate_id (cmp_predicate_stmts predicate_id cmp_op_arg).

(** [Inserted l probes out]: [out] is [l] with the blocks [probes]
    inserted, in this order, and nothing else changed. *)
Inductive Inserted : list Elem → list (list Elem) → list Elem → Prop :=
  | Inserted_nil : Inserted [] [] []
  | Inserted_keep e l probes out :
      Inserted l probes out → Inserted (e :: l) probes (e :: out)
  | Inserted_probe p l probes out :
      Inserted l probes out → Inserted l (p :: probes) (p ++ out).

(** The events of a trace that register predicates, and functions. *)
Definition predicate_ids (t : list Event) : list Z :=
  omap (λ e, match e with predicate_exists n => Some n | _ => None end) t.
Definition function_ids (t : list Event) : list Z :=
  omap (λ e, match e with function_exists n => Some n | _ => None end) t.

(** The state after a predicate has been registered: what
    [_add_bool_predicate] and [_add_cmp_predicate] do to the state. *)
Definition register_predicate (st : State) : State :=
  with_predicate_id (_predicate_id st + 1)
    (with_event (predicate_exists (_predicate_id st)) st).

(** The state after [k] predicates have been registered. *)
Definition register_predicates (k : nat) (st : State) : State :=
  Nat.iter k register_predicate st.

(** The state after the walk has registered a function. *)
Definition register_function (st : State) : State :=
  with_function_id (_function_id st + 1) (with_event (function_exists (_function_id st)) st).

(** ** The cursor during the walk *)

(** The cursor on [e], with the elements [B ++ [x]] in front of it. *)
Definition cursor_at (B : list Elem) (x e : Elem) (rest : list Elem) : ListIterator :=
  {| ListIterator._to_iterate := B ++ x :: e :: rest;
     ListIterator._idx := Z.of_nat (S (length B)) |}.

(** The cursor between two iterations: [e] was visited last. *)
Definition cursor_after (B : list Elem) (e : Elem) (rest : list Elem) : ListIterator :=
  {| ListIterator._to_iterate := B ++ e :: rest;
     ListIterator._idx := Z.of_nat (length B) |}.

Section Visited.

Variable is_cond_jump : Instr → bool.

(** The elements in front of [e] once [e] has been visited with [x] in
    front of it. *)
Definition visited_prefix (predicate_id : Z) (B : list Elem) (x e : Elem) : list Elem :=
  if is_cond_jump_elem is_cond_jump e then
    if is_compare_op x
    then B ++ cmp_predicate_stmts predicate_id (elem_arg x) ++ [x]
    else B ++ x :: bool_predicate_stmts predicate_id
  else B ++ [x].

Definition visited_state (e : Elem) (st : State) : State :=
  if is_cond_jump_elem is_cond_jump e then register_predicate st else st.

End Visited.

(** ** Relations between the states before and after a computation *)

(** The heap of function objects and namespaces, and the tracer, are the
    same in both states. *)
Definition same_heap (st st' : State) : Prop :=
  _tracer st' = _tracer st
  ∧ functions st' = functions st
  ∧ namespaces st' = namespaces st.

(** [events] were appended to the trace, and the identifiers registered
    by them are the values the two counters went through, each counter
    counting its own registrations. *)
Definition extends_ids (events : list Event) (st st' : State) : Prop :=
  trace st' = trace st ++ events
  ∧ predicate_ids events
    = seqZ (_predicate_id st) (Z.of_nat (length (predicate_ids events)))
  ∧ function_ids events
    = seqZ (_function_id st) (Z.of_nat (length (function_ids events)))
  ∧ _predicate_id st' = _predicate_id st + Z.of_nat (length (predicate_ids events))
  ∧ _function_id st' = _function_id st + Z.of_nat (length (function_ids events)).

(** Calls of the tracer's registration methods. *)
Definition is_registration (e : Event) : Prop :=
  match e with
  | predicate_exists _ | function_exists _ => True
  | _ => False
  end.

(** What the walk over code objects does to the state: it registers
    identifiers with the tracer, and nothing else. *)
Definition registers_only (st st' : State) : Prop :=
  ∃ events,
    extends_ids events st st' ∧ same_heap st st' ∧ Forall is_registration events.

(** ** The steps of [instrument_function] *)

(** The function object with the flag set. *)
Definition marked (fn : FunctionObj) : FunctionObj :=
  {| fn_dict := <[_INSTRUMENTED_FLAG := PBool true]> (fn_dict fn);
     fn_globals := fn_globals fn; fn_code := fn_code fn |}.

(** The function object with new code. *)
Definition with_code (code : Code) (fn : FunctionObj) : FunctionObj :=
  {| fn_dict := fn_dict fn; fn_globals := fn_globals fn; fn_code := code |}.

(** The state in which [instrument_function] calls
    [_instrument_code_recursive]: the flag is set and the tracer is in the
    globals [globals] of the function. *)
Definition marked_and_installed (f : ref) (fn : FunctionObj)
    (globals : gmap string PyVal) (st : State) : State :=
  with_event (set_global (fn_globals fn) _TRACER_NAME)
    (with_namespaces
       (<[fn_globals fn := <[_TRACER_NAME := _tracer st]> globals]> (namespaces st))
       (with_event (set_attribute f _INSTRUMENTED_FLAG)
          (with_functions (<[f := marked fn]> (functions st)) st))).

(** The state after [to_instrument.__code__ = code]. *)
Definition code_replaced (f : ref) (fn : FunctionObj) (code : Code) (st : State) : State :=
  with_event (set_code f)
    (with_functions (<[f := with_code code (marked fn)]> (functions st)) st).

(** The two counters and the registrations in the trace agree: some
    events were appended, and they extend the identifiers. *)
Definition counts_up (st st' : State) : Prop :=
  ∃ events, extends_ids events st st'.

(** ** What a run of [instrument] visits and rewrites *)

(** The objects whose members were listed, in order. *)
Definition visited (t : list Event) : list ref :=
  omap (λ e, match e with getmembers_of obj => Some obj | _ => None end) t.

(** The functions whose code was replaced, in order. *)
Definition rewritten (t : list Event) : list ref :=
  omap (λ e, match e with set_code f => Some f | _ => None end) t.

(** [hasattr(f, "instrumented")]. *)
Definition flagged (st : State) (f : ref) : Prop :=
  ∃ fn, functions st !! f = Some fn ∧ is_Some (fn_dict fn !! _INSTRUMENTED_FLAG).

(** Between the two states no function had its code replaced twice: every
    function whose code was replaced had no flag before and has it after,
    and no flag was removed. *)
Definition rewrites_once (st st' : State) : Prop :=
  ∃ events,
    trace st' = trace st ++ events
    ∧ NoDup (rewritten events)
    ∧ (∀ f, f ∈ rewritten events → ¬ flagged st f ∧ flagged st' f)
    ∧ (∀ f, flagged st f → flagged st' f).

(** The members that [instrument] descends into stay inside [universe]. *)
Definition closed_under_members (inspect : Inspect) (universe : gset ref) : Prop :=
  ∀ obj name value,
    obj ∈ universe →
    (name, value) ∈ getmembers inspect obj →
    isclass inspect value || ismethod inspect value = true →
    value ∈ universe.

(** What a call of [instrument], or the loop over the members, with the
    set [seen] has done when it left the result [r] from the state [st]:
    the objects it visited are distinct and were not in [seen]; if it
    returned, the set is [seen] with these objects added; and it did not
    run out of fuel, if the fuel was enough. *)
Definition visits_once (fuel_is_enough : Prop) (seen : gset ref) (st : State)
    (r : outcome (gset ref) * State) : Prop :=
  ∃ events,
    trace (snd r) = trace st ++ events
    ∧ NoDup (visited events)
    ∧ (∀ obj, obj ∈ visited events → obj ∉ seen)
    ∧ (∀ seen', fst r = Ret seen' → seen ≠ ∅ →
         seen' = seen ∪ list_to_set (visited events))
    ∧ (fuel_is_enough → fst r ≠ Raise OutOfFuel).

(** ** Concrete code, functions and objects *)

Module Examples.

(** [if a < b: ...] *)
Definition compare_and_jump : list Elem :=
  [ I1 "LOAD_FAST" (PStr "a"); I1 "LOAD_FAST" (PStr "b");
    I1 "COMPARE_OP" (PCompare LT); I1 "POP_JUMP_IF_FALSE" (PLabel 0) ].

(** [if flag: ...] *)
Definition load_and_jump : list Elem :=
  [ I1 "LOAD_FAST" (PStr "flag"); I1 "POP_JUMP_IF_FALSE" (PLabel 0) ].

(** A function with an inner function. *)
Definition outer_code : Code :=
  mkCode [CValue PNone; CCode (mkCode [] load_and_jump)] compare_and_jump.

(** A code object without instructions. *)
Definition empty_code : Code := mkCode [CValue PNone] [].

(** A state with no heap objects and both counters at zero. *)
Definition fresh : State := __init__ (POpaque 0) ∅ ∅.

Definition POP_JUMP_IF_FALSE : Instr := mkInstr "POP_JUMP_IF_FALSE" (PLabel 0).

End Examples.

Module FunctionExamples.

(** The globals of a module that binds [x] and already has a [tracer]. *)
Definition module_globals : gmap string PyVal :=
  {[ "x" := PInt 3; "tracer" := PStr "mine" ]}.

(** [def f(flag): if flag: ...], not instrumented. *)
Definition f : FunctionObj :=
  {| fn_dict := ∅; fn_globals := 100%nat;
     fn_code := mkCode [CValue PNone] Examples.load_and_jump |}.

(** A function of the same module that carries the flag. *)
Definition g : FunctionObj :=
  {| fn_dict := {[ "instrumented" := PBool true ]}; fn_globals := 100%nat;
     fn_code := mkCode [CValue PNone] Examples.load_and_jump |}.

(** A new [BranchInstrumentation] object on a heap with [f] at 1, [g] at 2
    and their globals at 100. *)
Definition st : State :=
  __init__ (POpaque 0) {[ 1%nat := f; 2%nat := g ]} {[ 100%nat := module_globals ]}.

End FunctionExamples.

Module ObjectExamples.

(** A module (0) with a class [A] (2) that holds a function [f] (1) and a
    class [B] (3), which refers back to [A]. *)
Definition cyclic : Inspect :=
  {| getmembers := λ obj,
       match obj with
       | 0%nat => [("A", 2%nat)]
       | 2%nat => [("B", 3%nat); ("f", 1%nat)]
       | 3%nat => [("A", 2%nat)]
       | _ => []
       end;
     isfunction := λ value, bool_decide (value = 1%nat);
     isclass := λ value, bool_decide (value = 2%nat ∨ value = 3%nat);
     ismethod := λ _, false |}.

(** A module (0) with a function [f] (1) and a class [C] (2) that holds
    the same function under the name [m]. *)
Definition shared : Inspect :=
  {| getmembers := λ obj,
       match obj with
       | 0%nat => [("C", 2%nat); ("f", 1%nat)]
       | 2%nat => [("m", 1%nat)]
       | _ => []
       end;
     isfunction := λ value, bool_decide (value = 1%nat);
     isclass := λ value, bool_decide (value = 2%nat);
     ismethod := λ _, false |}.

Definition universe : gset ref := {[ 0%nat; 1%nat; 2%nat; 3%nat ]}.

End ObjectExamples.

(** ** Measures of nested code objects *)

(** The sum of a measure over the code objects of a constant pool. *)
Definition sum_consts (measure : Code → nat) : list Const → nat :=
  fix sum_consts (consts : list Const) : nat :=
    match consts with
    | [] => 0%nat
    | CCode inner :: consts => (measure inner + sum_consts consts)%nat
    | CValue _ :: consts => sum_consts consts
    end.

(** The number of code objects with at least one instruction in a code
    object, itself and the nested ones at every depth. *)
Fixpoint count_units (code : Code) : nat :=
  match code with
  | mkCode consts instructions =>
      (sum_consts count_units consts
       + match instructions with [] => 0 | _ => 1 end)%nat
  end.

(** The number of conditional jumps in a code object, its own and those
    of the nested code objects at every depth. *)
Fixpoint count_jumps (is_cond_jump : Instr → bool) (code : Code) : nat :=
  match code with
  | mkCode consts instructions =>
      (sum_consts (count_jumps is_cond_jump) consts
       + count_cond_jumps is_cond_jump instructions)%nat
  end.

(** An entry of a constant pool and what [_instrument_code_recursive]
    puts in its place: a value stays, a code object is replaced by the
    result of a run of [_instrument_code_recursive] on it. *)
Definition const_instrumented (is_cond_jump : Instr → bool) (k k' : Const) : Prop :=
  match k, k' with
  | CValue v, CValue v' => v = v'
  | CCode c, CCode c' =>
      ∃ st st', _instrument_code_recursive is_cond_jump c st = (Ret c', st')
  | _, _ => False
  end.

(** The state after [_instrument_code_recursive] registered [u] functions
    and [j] predicates, in any order. *)
Definition counted (u j : nat) (st st' : State) : Prop :=
  registers_only st st'
  ∧ _function_id st' = _function_id st + Z.of_nat u
  ∧ _predicate_id st' = _predicate_id st + Z.of_nat j.

(** ** The members of an object *)

(** The values among the members of an object that [instrument] hands to
    [instrument_function]. *)
Definition function_members (inspect : Inspect) (obj : ref) : list ref :=
  filter (λ value, isfunction inspect value = true) (snd <$> getmembers inspect obj).

(** The values among the members of an object that [instrument] calls
    itself on: classes and methods. *)
Definition descended_members (inspect : Inspect) (obj : ref) : list ref :=
  filter (λ value, isclass inspect value || ismethod inspect value = true)
    (snd <$> getmembers inspect obj).

(** The objects that are reached from [root] through members that are
    classes or methods. *)
Inductive reachable (inspect : Inspect) (root : ref) : ref → Prop :=
  | reachable_root : reachable inspect root root
  | reachable_member obj value :
      reachable inspect root obj →
      value ∈ descended_members inspect obj →
      reachable inspect root value.

Module MoreExamples.

(** [return None]: the code of a function with an empty body. *)
Definition return_none : list Elem :=
  [ I1 "LOAD_CONST" PNone; I0 "RETURN_VALUE" ].

End MoreExamples.

(** The trace of the second state begins with the trace of the first. *)
Definition trace_extends (st st' : State) : Prop :=
  ∃ events, trace st' = trace st ++ events.

(** What a call [instrument(obj, seen)] has done when it returned the set
    [seen'] and left the state [st'] from the state [st].  With the set
    it worked on, the given one or a new one, with the visited objects
    added: [obj] is in it; the functions whose code was replaced are the
    function members of the visited objects, each as often as it is a
    member; and the classes and methods among the members of the visited
    objects are in it. *)
Definition walk_returned (inspect : Inspect) (obj : ref) (seen : option (gset ref))
    (st : State) (seen' : gset ref) (st' : State) : Prop :=
  ∃ events,
    trace st' = trace st ++ events
    ∧ (default ∅ seen ≠ ∅ →
         seen' = default ∅ seen ∪ list_to_set (visited events))
    ∧ obj ∈ default ∅ seen ∪ list_to_set (visited events)
    ∧ rewritten events ≡ₚ concat (function_members inspect <$> visited events)
    ∧ (∀ o, o ∈ visited events →
         ∀ value, value ∈ descended_members inspect o →
           value ∈ default ∅ seen ∪ list_to_set (C := gset ref) (visited events)).

(** * Properties *)

(** ** Python lists *)

Section PyListFacts.
Context {A : Type}.
Implicit Types l ins : list A.

Lemma getitem_of_nat l (n : nat) : PyList.getitem l (Z.of_nat n) = l !! n.
Proof.
  unfold PyList.getitem.
  destruct (Z.leb_spec 0 (Z.of_nat n)); [by rewrite Nat2Z.id | lia].
Qed.

Lemma getitem_middle l1 x l2 :
  PyList.getitem (l1 ++ x :: l2) (Z.of_nat (length l1)) = Some x.
Proof. rewrite getitem_of_nat. by rewrite list_lookup_middle. Qed.

Lemma insert_slice_of_nat l1 l2 ins :
  PyList.insert_slice (l1 ++ l2) (Z.of_nat (length l1)) ins = l1 ++ ins ++ l2.
Proof.
  unfold PyList.insert_slice, PyList.slice_bound.
  destruct (Z.ltb_spec (Z.of_nat (length l1)) 0); [lia |].
  rewrite length_app, Z.min_l by lia. rewrite Nat2Z.id.
  by rewrite take_app_length, drop_app_length.
Qed.

Lemma length_insert_slice l i ins :
  length (PyList.insert_slice l i ins) = (length l + length ins)%nat.
Proof.
  unfold PyList.insert_slice. rewrite !length_app, length_take, length_drop. lia.
Qed.

End PyListFacts.

(** ** The cursor during the walk *)

Lemma current_cursor_at B x e rest :
  ListIterator.current (cursor_at B x e rest) = Some e.
Proof.
  unfold ListIterator.current, cursor_at; simpl ListIterator._to_iterate.
  simpl ListIterator._idx.
  replace (B ++ x :: e :: rest) with ((B ++ [x]) ++ e :: rest)
    by (by rewrite <- app_assoc).
  replace (S (length B)) with (length (B ++ [x]))
    by (rewrite length_app; simpl; lia).
  apply getitem_middle.
Qed.

Lemma has_previous_cursor_at B x e rest :
  ListIterator.has_previous (cursor_at B x e rest) = true.
Proof.
  unfold ListIterator.has_previous, cursor_at; simpl ListIterator._idx.
  apply Z.ltb_lt. lia.
Qed.

Lemma previous_cursor_at B x e rest :
  ListIterator.previous (cursor_at B x e rest) = Some x.
Proof.
  unfold ListIterator.previous, cursor_at; simpl ListIterator._to_iterate.
  simpl ListIterator._idx.
  replace (Z.of_nat (S (length B)) - 1) with (Z.of_nat (length B)) by lia.
  apply getitem_middle.
Qed.

Lemma insert_before_cursor_at_0 B x e rest ins :
  ListIterator.insert_before (cursor_at B x e rest) ins 0
  = cursor_after (B ++ x :: ins) e rest.
Proof.
  unfold ListIterator.insert_before, cursor_at, cursor_after.
  simpl ListIterator._to_iterate. simpl ListIterator._idx. f_equal.
  - replace (B ++ x :: e :: rest) with ((B ++ [x]) ++ e :: rest)
      by (by rewrite <- app_assoc).
    replace (Z.of_nat (S (length B)) - 0) with (Z.of_nat (length (B ++ [x])))
      by (rewrite length_app; simpl; lia).
    rewrite insert_slice_of_nat. by rewrite <- !app_assoc.
  - rewrite length_app; simpl. lia.
Qed.

Lemma insert_before_cursor_at_1 B x e rest ins :
  ListIterator.insert_before (cursor_at B x e rest) ins 1
  = cursor_after (B ++ ins ++ [x]) e rest.
Proof.
  unfold ListIterator.insert_before, cursor_at, cursor_after.
  simpl ListIterator._to_iterate. simpl ListIterator._idx. f_equal.
  - replace (Z.of_nat (S (length B)) - 1) with (Z.of_nat (length B)) by lia.
    rewrite insert_slice_of_nat. by rewrite <- !app_assoc.
  - rewrite !length_app; simpl. lia.
Qed.

Lemma next_cursor_after_nil B e :
  ListIterator.next (cursor_after B e []) = (false, cursor_after B e []).
Proof.
  unfold ListIterator.next, cursor_after; simpl.
  rewrite length_app; simpl.
  destruct (Z.ltb_spec (Z.of_nat (length B) + 1) (Z.of_nat (length B + 1)));
    [lia | done].
Qed.

Lemma next_cursor_after_cons B x e rest :
  ListIterator.next (cursor_after B x (e :: rest)) = (true, cursor_at B x e rest).
Proof.
  unfold ListIterator.next, cursor_after, cursor_at; simpl.
  rewrite length_app; simpl.
  destruct (Z.ltb_spec (Z.of_nat (length B) + 1)
              (Z.of_nat (length B + S (S (length rest))))); [| lia].
  do 2 f_equal. lia.
Qed.

(** ** The probe functions *)

Lemma _add_bool_predicate_eq it st :
  _add_bool_predicate it st
  = (Ret (ListIterator.insert_before it (bool_predicate_stmts (_predicate_id st)) 0),
     register_predicate st).
Proof. reflexivity. Qed.

Lemma _add_cmp_predicate_eq it cmp_op st :
  ListIterator.previous it = Some (EInstr cmp_op) →
  _add_cmp_predicate it st
  = (Ret (ListIterator.insert_before it
            (cmp_predicate_stmts (_predicate_id st) (arg cmp_op)) 1),
     register_predicate st).
Proof. intros H. unfold _add_cmp_predicate, bind. by rewrite H. Qed.

Lemma _add_function_entered_eq it st :
  _add_function_entered it st
  = (Ret (ListIterator.insert_before it (function_entered_stmts (_function_id st)) 0),
     register_function st).
Proof. reflexivity. Qed.

(** ** The walk computes [instrumented] *)

Section WalkFacts.

Variable is_cond_jump : Instr → bool.

Lemma previous_is_compare_op_cursor_at B x e rest st :
  previous_is_compare_op (cursor_at B x e rest) st = (Ret (is_compare_op x), st).
Proof.
  unfold previous_is_compare_op.
  rewrite has_previous_cursor_at, previous_cursor_at.
  by destruct x.
Qed.

Lemma cursor_at_after B x e rest :
  cursor_at B x e rest = cursor_after (B ++ [x]) e rest.
Proof.
  unfold cursor_at, cursor_after. f_equal.
  - by rewrite <- app_assoc.
  - rewrite length_app; simpl. lia.
Qed.

Lemma visit_current_cursor_at B x e rest st :
  visit_current is_cond_jump (cursor_at B x e rest) st
  = (Ret (cursor_after (visited_prefix is_cond_jump (_predicate_id st) B x e) e rest),
     visited_state is_cond_jump e st).
Proof.
  unfold visit_current, bind at 1. rewrite current_cursor_at.
  cbn [or_raise ret].
  unfold visited_prefix, visited_state.
  destruct e as [i| |]; cbn [is_cond_jump_elem];
    try (unfold ret; by rewrite cursor_at_after).
  destruct (is_cond_jump i); [| unfold ret; by rewrite cursor_at_after].
  unfold bind. rewrite previous_is_compare_op_cursor_at.
  destruct (is_compare_op x) eqn:Hx.
  - destruct x as [p| |]; try discriminate Hx.
    rewrite (_add_cmp_predicate_eq _ p) by apply previous_cursor_at.
    by rewrite insert_before_cursor_at_1.
  - rewrite _add_bool_predicate_eq. by rewrite insert_before_cursor_at_0.
Qed.

Lemma weave_visited pid B x e rest :
  B ++ weave is_cond_jump pid x (e :: rest)
  = visited_prefix is_cond_jump pid B x e
      ++ weave is_cond_jump
           (if is_cond_jump_elem is_cond_jump e then pid + 1 else pid) e rest.
Proof.
  unfold visited_prefix. cbn [weave].
  destruct (is_cond_jump_elem is_cond_jump e).
  - destruct (is_compare_op x).
    + by rewrite <- !app_assoc.
    + by rewrite <- app_assoc.
  - by rewrite <- app_assoc.
Qed.

Lemma _predicate_id_visited_state e st :
  _predicate_id (visited_state is_cond_jump e st)
  = if is_cond_jump_elem is_cond_jump e
    then _predicate_id st + 1 else _predicate_id st.
Proof. unfold visited_state. by destruct (is_cond_jump_elem is_cond_jump e). Qed.

Lemma register_predicates_visited e rest st :
  register_predicates (count_cond_jumps is_cond_jump rest)
    (visited_state is_cond_jump e st)
  = register_predicates (count_cond_jumps is_cond_jump (e :: rest)) st.
Proof.
  unfold visited_state, count_cond_jumps, register_predicates.
  rewrite filter_cons.
  destruct (is_cond_jump_elem is_cond_jump e) eqn:E.
  - rewrite decide_True by done. simpl length. by rewrite Nat.iter_succ_r.
  - by rewrite decide_False by done.
Qed.

Lemma walk_S fuel function_entered_inserted code_iter :
  walk is_cond_jump (S fuel) function_entered_inserted code_iter
  = match ListIterator.next code_iter with
    | (false, code_iter) => ret code_iter
    | (true, code_iter) =>
        let* code_iter :=
          if negb function_entered_inserted
          then _add_function_entered code_iter
          else ret code_iter in
        let* code_iter := visit_current is_cond_jump code_iter in
        walk is_cond_jump fuel true code_iter
    end.
Proof. reflexivity. Qed.

(** The rest of an iteration after the function-entered probe, and the
    iterations after it: the walk from a cursor on [e] with [x] in front
    produces [weave]. *)
Lemma visit_then_walk rest : ∀ e B x st fuel,
  (length rest < fuel)%nat →
  ∃ it,
    (let* code_iter := visit_current is_cond_jump (cursor_at B x e rest) in
     walk is_cond_jump fuel true code_iter) st
    = (Ret it, register_predicates (count_cond_jumps is_cond_jump (e :: rest)) st)
    ∧ ListIterator._to_iterate it
      = B ++ weave is_cond_jump (_predicate_id st) x (e :: rest).
Proof.
  induction rest as [|e2 rest IH]; intros e B x st fuel Hfuel;
    unfold bind; rewrite visit_current_cursor_at;
    (destruct fuel as [|fuel]; [simpl in Hfuel; lia |]);
    rewrite walk_S, weave_visited, <- register_predicates_visited.
  - rewrite next_cursor_after_nil. eexists; split; [reflexivity |].
    by destruct (is_cond_jump_elem is_cond_jump e).
  - rewrite next_cursor_after_cons. cbn [negb]. unfold bind at 1, ret at 1.
    destruct (IH e2 (visited_prefix is_cond_jump (_predicate_id st) B x e) e
                (visited_state is_cond_jump e st) fuel) as (it & Hrun & Hit);
      [simpl in Hfuel; lia |].
    exists it. split; [exact Hrun |].
    by rewrite Hit, _predicate_id_visited_state.
Qed.

(** The walk over the instructions of a code object terminates and
    yields [instrumented]; it registers one function, unless there is no
    instruction, and one predicate per conditional jump. *)
Lemma instrument_instructions_eq l st :
  instrument_instructions is_cond_jump l st
  = (Ret (instrumented is_cond_jump (_function_id st) (_predicate_id st) l),
     match l with
     | [] => st
     | _ => register_predicates (count_cond_jumps is_cond_jump l)
              (register_function st)
     end).
Proof.
  unfold instrument_instructions.
  destruct l as [|e rest]; [reflexivity |].
  rewrite walk_S.
  replace (ListIterator.next (ListIterator.init (e :: rest)))
    with (true, {| ListIterator._to_iterate := e :: rest; ListIterator._idx := 0 |}).
  2:{ unfold ListIterator.next, ListIterator.init; simpl.
      by destruct (Z.ltb_spec 0 (Z.pos (Pos.of_succ_nat (length rest)))); [| lia]. }
  cbn [negb]. unfold bind at 1 2. rewrite _add_function_entered_eq.
  replace (ListIterator.insert_before _ _ 0)
    with (cursor_at (take 4 (function_entered_stmts (_function_id st)))
            (I0 "POP_TOP") e rest) by reflexivity.
  destruct (visit_then_walk rest e
              (take 4 (function_entered_stmts (_function_id st)))
              (I0 "POP_TOP") (register_function st) (length (e :: rest)))
    as (it & Hrun & Hit); [simpl; lia |].
  rewrite Hrun. unfold ret. by rewrite Hit.
Qed.

End WalkFacts.

(** ** What registering identifiers does to the state *)

Lemma seqZ_succ_cons (m : Z) (k : nat) :
  seqZ m (Z.of_nat (S k)) = m :: seqZ (m + 1) (Z.of_nat k).
Proof.
  rewrite seqZ_cons by lia. f_equal. f_equal; lia.
Qed.

Lemma register_predicates_S k st :
  register_predicates (S k) st = register_predicates k (register_predicate st).
Proof. unfold register_predicates. by rewrite Nat.iter_succ_r. Qed.

Lemma register_predicates_spec k : ∀ st,
  _predicate_id (register_predicates k st) = _predicate_id st + Z.of_nat k
  ∧ _function_id (register_predicates k st) = _function_id st
  ∧ _tracer (register_predicates k st) = _tracer st
  ∧ functions (register_predicates k st) = functions st
  ∧ namespaces (register_predicates k st) = namespaces st
  ∧ trace (register_predicates k st)
    = trace st ++ (predicate_exists <$> seqZ (_predicate_id st) (Z.of_nat k)).
Proof.
  induction k as [|k IH]; intros st.
  - cbn. rewrite Z.add_0_r, app_nil_r. done.
  - rewrite register_predicates_S.
    destruct (IH (register_predicate st)) as (Hp & Hf & Ht & Hfs & Hns & Htr).
    rewrite Hp, Hf, Ht, Hfs, Hns, Htr, seqZ_succ_cons. cbn.
    rewrite <- app_assoc. repeat split; try done. lia.
Qed.

(** ** The probes of [instrumented] *)

Section WeaveFacts.

Variable is_cond_jump : Instr → bool.

Lemma count_cond_jumps_cons e l :
  count_cond_jumps is_cond_jump (e :: l)
  = if is_cond_jump_elem is_cond_jump e
    then S (count_cond_jumps is_cond_jump l)
    else count_cond_jumps is_cond_jump l.
Proof.
  unfold count_cond_jumps. rewrite filter_cons.
  destruct (is_cond_jump_elem is_cond_jump e).
  - by rewrite decide_True.
  - by rewrite decide_False.
Qed.

(** [weave] inserts one predicate probe per conditional jump of [rest],
    with the identifiers from [pid] on, and changes nothing else. *)
Lemma weave_inserted rest : ∀ pid x,
  ∃ probes,
    Inserted (x :: rest) probes (weave is_cond_jump pid x rest)
    ∧ Forall2 predicate_probe
        (seqZ pid (Z.of_nat (count_cond_jumps is_cond_jump rest))) probes.
Proof.
  induction rest as [|e rest IH]; intros pid x.
  - exists []. split; [repeat constructor | constructor].
  - cbn [weave]. rewrite count_cond_jumps_cons.
    destruct (is_cond_jump_elem is_cond_jump e).
    + destruct (IH (pid + 1) e) as (probes & Hins & Hids).
      rewrite seqZ_succ_cons. destruct (is_compare_op x).
      * eexists (_ :: probes). split.
        -- apply Inserted_probe, Inserted_keep, Hins.
        -- constructor; [constructor | done].
      * eexists (_ :: probes). split.
        -- apply Inserted_keep, Inserted_probe, Hins.
        -- constructor; [constructor | done].
    + destruct (IH pid e) as (probes & Hins & Hids).
      exists probes. split; [by apply Inserted_keep | done].
Qed.

(** For a sequence with an instruction, [instrumented] inserts the
    function-entered probe and one predicate probe per conditional
    jump. *)
Lemma instrumented_inserted fid pid l :
  l ≠ [] →
  ∃ probes,
    Inserted l (function_entered_stmts fid :: probes)
      (instrumented is_cond_jump fid pid l)
    ∧ Forall2 predicate_probe
        (seqZ pid (Z.of_nat (count_cond_jumps is_cond_jump l))) probes.
Proof.
  destruct l as [|e rest]; [done | intros _].
  unfold instrumented. cbn [weave]. rewrite count_cond_jumps_cons.
  change (is_compare_op (I0 "POP_TOP")) with false.
  destruct (is_cond_jump_elem is_cond_jump e).
  - destruct (weave_inserted rest (pid + 1) e) as (probes & Hins & Hids).
    eexists (_ :: probes). split.
    + apply (Inserted_probe (function_entered_stmts fid)).
      apply Inserted_probe, Hins.
    + rewrite seqZ_succ_cons. constructor; [constructor | done].
  - destruct (weave_inserted rest pid e) as (probes & Hins & Hids).
    exists probes. split; [| done].
    apply (Inserted_probe (function_entered_stmts fid)), Hins.
Qed.

(** Insertion only adds elements. *)
Lemma Inserted_length l probes out :
  Inserted l probes out →
  length out = (length l + length (concat probes))%nat.
Proof.
  induction 1 as [|e l probes out _ IH|p l probes out _ IH]; simpl.
  - done.
  - by rewrite IH.
  - rewrite !length_app, IH. lia.
Qed.

Lemma Inserted_sublist l probes out : Inserted l probes out → sublist l out.
Proof.
  induction 1 as [|e l probes out _ IH|p l probes out _ IH].
  - constructor.
  - by constructor.
  - by apply sublist_inserts_l.
Qed.

End WeaveFacts.

(** ** Nested code objects *)

(** Induction over code objects, with the hypothesis for the code objects
    of the constant pool. *)
Lemma Code_nested_ind (P : Code → Prop) :
  (∀ consts instructions,
     Forall (λ k, match k with CCode c => P c | CValue _ => True end) consts →
     P (mkCode consts instructions)) →
  ∀ c, P c.
Proof.
  intros H. fix IH 1. intros [consts instructions]. apply H.
  induction consts as [|k consts IHconsts]; constructor.
  - destruct k; [apply IH | exact I].
  - exact IHconsts.
Qed.

(** ** Identifiers along the trace *)

Lemma predicate_ids_app t1 t2 :
  predicate_ids (t1 ++ t2) = predicate_ids t1 ++ predicate_ids t2.
Proof. apply omap_app. Qed.

Lemma function_ids_app t1 t2 :
  function_ids (t1 ++ t2) = function_ids t1 ++ function_ids t2.
Proof. apply omap_app. Qed.

Lemma predicate_ids_predicate_exists l :
  predicate_ids (predicate_exists <$> l) = l.
Proof. induction l as [|x l IH]; [done | cbn; f_equal; exact IH]. Qed.

Lemma function_ids_predicate_exists l :
  function_ids (predicate_exists <$> l) = [].
Proof. induction l as [|x l IH]; [done | by cbn]. Qed.

Lemma seqZ_of_nat_app m (n1 n2 : nat) :
  seqZ m (Z.of_nat n1) ++ seqZ (m + Z.of_nat n1) (Z.of_nat n2)
  = seqZ m (Z.of_nat (n1 + n2)).
Proof. rewrite Nat2Z.inj_add, seqZ_app by lia. done. Qed.

Lemma length_seqZ_of_nat m (n : nat) : length (seqZ m (Z.of_nat n)) = n.
Proof. rewrite length_seqZ. lia. Qed.

Lemma extends_ids_refl st : extends_ids [] st st.
Proof.
  unfold extends_ids; cbn. rewrite app_nil_r, !Z.add_0_r. done.
Qed.

Lemma extends_ids_trans ev1 ev2 st st1 st2 :
  extends_ids ev1 st st1 → extends_ids ev2 st1 st2 →
  extends_ids (ev1 ++ ev2) st st2.
Proof.
  intros (Ht1 & Hp1 & Hf1 & Hpid1 & Hfid1) (Ht2 & Hp2 & Hf2 & Hpid2 & Hfid2).
  unfold extends_ids.
  rewrite predicate_ids_app, function_ids_app, !length_app.
  rewrite <- !seqZ_of_nat_app, <- Hpid1, <- Hfid1, <- Hp1, <- Hf1, <- Hp2, <- Hf2.
  rewrite Ht2, Ht1, <- app_assoc, Hpid2, Hfid2, Hpid1, Hfid1.
  repeat split; try done; lia.
Qed.

Lemma extends_ids_register_function st :
  extends_ids [function_exists (_function_id st)] st (register_function st).
Proof.
  unfold extends_ids; cbn. rewrite Z.add_0_r. repeat split; try done.
Qed.

Lemma extends_ids_register_predicates k st :
  extends_ids (predicate_exists <$> seqZ (_predicate_id st) (Z.of_nat k))
    st (register_predicates k st).
Proof.
  destruct (register_predicates_spec k st) as (Hp & Hf & _ & _ & _ & Htr).
  unfold extends_ids.
  rewrite predicate_ids_predicate_exists, function_ids_predicate_exists.
  rewrite length_seqZ_of_nat. cbn. rewrite Z.add_0_r. done.
Qed.

Lemma same_heap_refl st : same_heap st st.
Proof. done. Qed.

Lemma same_heap_trans st st1 st2 :
  same_heap st st1 → same_heap st1 st2 → same_heap st st2.
Proof.
  intros (? & ? & ?) (? & ? & ?). unfold same_heap. split_and!; congruence.
Qed.

Lemma registers_only_refl st : registers_only st st.
Proof.
  exists []. split_and!; [apply extends_ids_refl | done | constructor].
Qed.

Lemma registers_only_trans st st1 st2 :
  registers_only st st1 → registers_only st1 st2 → registers_only st st2.
Proof.
  intros (ev1 & He1 & Hh1 & Hr1) (ev2 & He2 & Hh2 & Hr2).
  exists (ev1 ++ ev2). split_and!.
  - by eapply extends_ids_trans.
  - by eapply same_heap_trans.
  - by apply Forall_app.
Qed.

Lemma registers_only_register_function st :
  registers_only st (register_function st).
Proof.
  eexists. split_and!; [apply extends_ids_register_function | done |].
  by repeat constructor.
Qed.

Lemma registers_only_register_predicates k st :
  registers_only st (register_predicates k st).
Proof.
  eexists. split_and!; [apply extends_ids_register_predicates | |].
  - destruct (register_predicates_spec k st) as (_ & _ & ? & ? & ? & _). done.
  - apply Forall_fmap, Forall_true. done.
Qed.

Section RecursiveFacts.

Variable is_cond_jump : Instr → bool.

Lemma _instrument_code_recursive_eq consts instructions :
  _instrument_code_recursive is_cond_jump (mkCode consts instructions)
  = (let* new_consts :=
       for_consts (_instrument_code_recursive is_cond_jump) consts in
     let* instructions := instrument_instructions is_cond_jump instructions in
     ret (mkCode new_consts instructions)).
Proof. reflexivity. Qed.

Lemma instrument_instructions_registers_only l st :
  registers_only st (snd (instrument_instructions is_cond_jump l st)).
Proof.
  rewrite instrument_instructions_eq. cbn [snd].
  destruct l; [apply registers_only_refl |].
  eapply registers_only_trans;
    [apply registers_only_register_function
    | apply registers_only_register_predicates].
Qed.

(** The loop over the constant pool returns, if the recursive calls on
    the code objects of the pool do. *)
Lemma for_consts_total consts :
  Forall (λ k, match k with
               | CCode c => ∀ st, ∃ c' st',
                   _instrument_code_recursive is_cond_jump c st = (Ret c', st')
                   ∧ registers_only st st'
               | CValue _ => True
               end) consts →
  ∀ st, ∃ new_consts st',
    for_consts (_instrument_code_recursive is_cond_jump) consts st
    = (Ret new_consts, st')
    ∧ length new_consts = length consts
    ∧ registers_only st st'.
Proof.
  induction 1 as [|k consts Hk _ IH]; intros st.
  - exists [], st. split_and!; [done | done | apply registers_only_refl].
  - destruct k as [c | v]; cbn [for_consts].
    + destruct (Hk st) as (c' & st1 & Hc & Hr1).
      destruct (IH st1) as (cs' & st2 & Hcs & Hlen & Hr2).
      exists (CCode c' :: cs'), st2. unfold bind. rewrite Hc, Hcs.
      split_and!; [done | cbn; by rewrite Hlen |].
      by eapply registers_only_trans.
    + destruct (IH st) as (cs' & st2 & Hcs & Hlen & Hr2).
      exists (CValue v :: cs'), st2. unfold bind. rewrite Hcs.
      split_and!; [done | cbn; by rewrite Hlen | done].
Qed.

(** [_instrument_code_recursive] returns on every code object, however
    deeply nested. *)
Lemma _instrument_code_recursive_total : ∀ code st,
  ∃ code' st',
    _instrument_code_recursive is_cond_jump code st = (Ret code', st')
    ∧ registers_only st st'.
Proof.
  induction code as [consts instructions IH] using Code_nested_ind.
  intros st. rewrite _instrument_code_recursive_eq.
  destruct (for_consts_total consts IH st) as (cs' & st1 & Hcs & _ & Hr1).
  unfold bind. rewrite Hcs.
  pose proof (instrument_instructions_registers_only instructions st1) as Hr2.
  rewrite instrument_instructions_eq in Hr2 |- *. cbn [snd] in Hr2.
  eexists _, _. split; [reflexivity |].
  by eapply registers_only_trans.
Qed.

End RecursiveFacts.

(** ** Probes per code object *)

Section PerUnit.

Variable is_cond_jump : Instr → bool.

(** C1 (as amended): for every code object with at least one
    instruction and [k] conditional jumps among its instructions,
    however deeply code objects are nested in its constant pool,
    [_instrument_code_recursive] returns, and the instructions of the
    result are the original ones with exactly one function-entered
    probe and exactly [k] predicate probes inserted; the tracer learns
    of one function and [k] predicates for this code object, after
    those of the nested code objects. *)
Theorem C1_one_entry_probe_and_k_predicate_probes consts instructions st :
  instructions ≠ [] →
  ∃ new_consts st_consts out st' probes,
    for_consts (_instrument_code_recursive is_cond_jump) consts st
    = (Ret new_consts, st_consts)
    ∧ _instrument_code_recursive is_cond_jump (mkCode consts instructions) st
      = (Ret (mkCode new_consts out), st')
    ∧ Inserted instructions
        (function_entered_stmts (_function_id st_consts) :: probes) out
    ∧ length probes = count_cond_jumps is_cond_jump instructions
    ∧ Forall2 predicate_probe
        (seqZ (_predicate_id st_consts) (Z.of_nat (length probes))) probes
    ∧ trace st'
      = trace st_consts
          ++ function_exists (_function_id st_consts)
          :: (predicate_exists
                <$> seqZ (_predicate_id st_consts) (Z.of_nat (length probes)))
    ∧ _function_id st' = _function_id st_consts + 1
    ∧ _predicate_id st' = _predicate_id st_consts + Z.of_nat (length probes).
Proof.
  intros Hne.
  destruct (for_consts_total is_cond_jump consts) with (st := st)
    as (new_consts & st_consts & Hconsts & _ & _).
  { apply Forall_forall. intros [c|v] _; [| done].
    apply _instrument_code_recursive_total. }
  destruct (instrumented_inserted is_cond_jump (_function_id st_consts)
              (_predicate_id st_consts) instructions Hne)
    as (probes & Hins & Hids).
  assert (length probes = count_cond_jumps is_cond_jump instructions) as Hlen.
  { apply Forall2_length in Hids. by rewrite length_seqZ_of_nat in Hids. }
  eexists new_consts, st_consts, _, _, probes.
  rewrite _instrument_code_recursive_eq. unfold bind at 1 2.
  rewrite Hconsts, instrument_instructions_eq.
  split_and!; [done | reflexivity | exact Hins | exact Hlen | by rewrite Hlen | ..];
    destruct instructions as [|e rest]; try done; rewrite ?Hlen;
    destruct (register_predicates_spec
                (count_cond_jumps is_cond_jump (e :: rest))
                (register_function st_consts))
      as (Hp & Hf & _ & _ & _ & Htr).
  - rewrite Htr. cbn. by rewrite <- app_assoc.
  - by rewrite Hf.
  - by rewrite Hp.
Qed.

(** C9 (as amended): a code object without instructions gets no probe.
    [_instrument_code_recursive] instruments the code objects of its
    constant pool and returns the code object with no instructions; the
    state is the one after the constant pool: no function identifier and
    no predicate identifier is used for the code object itself. *)
Theorem C9_no_instruction_no_probe consts st :
  ∃ new_consts st',
    for_consts (_instrument_code_recursive is_cond_jump) consts st
    = (Ret new_consts, st')
    ∧ _instrument_code_recursive is_cond_jump (mkCode consts []) st
      = (Ret (mkCode new_consts []), st')
    ∧ instrument_instructions is_cond_jump [] st' = (Ret [], st').
Proof.
  destruct (for_consts_total is_cond_jump consts) with (st := st)
    as (new_consts & st' & Hconsts & _ & _).
  { apply Forall_forall. intros [c|v] _; [| done].
    apply _instrument_code_recursive_total. }
  exists new_consts, st'.
  rewrite _instrument_code_recursive_eq. unfold bind at 1 2.
  by rewrite Hconsts, instrument_instructions_eq.
Qed.

End PerUnit.

(** ** Where the predicate probes go *)

Section Placement.

Variable is_cond_jump : Instr → bool.

Lemma count_cond_jumps_app l1 l2 :
  count_cond_jumps is_cond_jump (l1 ++ l2)
  = (count_cond_jumps is_cond_jump l1 + count_cond_jumps is_cond_jump l2)%nat.
Proof. unfold count_cond_jumps. by rewrite filter_app, length_app. Qed.

Lemma instrumented_nonempty fid pid l :
  l ≠ [] →
  instrumented is_cond_jump fid pid l
  = take 4 (function_entered_stmts fid) ++ weave is_cond_jump pid (I0 "POP_TOP") l.
Proof. by destruct l. Qed.

(** The pending element stays in the output; only a comparison can get
    a probe in front of it. *)
Lemma weave_head pid x rest :
  ∃ P T,
    weave is_cond_jump pid x rest = P ++ x :: T
    ∧ (is_compare_op x = false → P = []).
Proof.
  destruct rest as [|e rest]; cbn [weave].
  - by exists [], [].
  - destruct (is_cond_jump_elem is_cond_jump e); [destruct (is_compare_op x) |].
    + by eexists _, _.
    + by eexists [], _.
    + by eexists [], _.
Qed.

(** The walk up to an element [e] depends on what follows [e] only
    through the probe that a conditional jump [e] gets. *)
Lemma weave_split pre : ∀ pid x0 e rest,
  ∃ W,
    weave is_cond_jump pid x0 (pre ++ e :: rest)
    = W ++ visited_prefix is_cond_jump
             (pid + Z.of_nat (count_cond_jumps is_cond_jump pre)) []
             (default x0 (last pre)) e
        ++ weave is_cond_jump
             (pid + Z.of_nat (count_cond_jumps is_cond_jump (pre ++ [e]))) e rest.
Proof.
  induction pre as [|p pre IH]; intros pid x0 e rest.
  - exists []. cbn [app last default].
    rewrite (weave_visited is_cond_jump pid [] x0 e rest) at 1.
    rewrite count_cond_jumps_cons. cbn. rewrite Z.add_0_r.
    destruct (is_cond_jump_elem is_cond_jump e); cbn; by rewrite ?Z.add_0_r.
  - rewrite <- app_comm_cons.
    rewrite <- (app_nil_l (weave _ _ _ (p :: _))), weave_visited.
    destruct (IH (if is_cond_jump_elem is_cond_jump p then pid + 1 else pid)
                p e rest) as (W & HW).
    exists (visited_prefix is_cond_jump pid [] x0 p ++ W).
    rewrite HW, <- !app_assoc. rewrite <- !app_comm_cons, !count_cond_jumps_cons.
    replace (default x0 (last (p :: pre))) with (default p (last pre))
      by (by destruct pre using rev_ind; [| rewrite app_comm_cons, !last_snoc]).
    destruct (is_cond_jump_elem is_cond_jump p); [| done].
    by rewrite !Nat2Z.inj_succ, <- !Z.add_1_l, !Z.add_assoc.
Qed.

(** Where the probe of a conditional jump [j] goes, in terms of the lists
    [stmts] that the probe functions build: in front of the element [x]
    before [j] if [x] is a comparison, between [x] and [j] otherwise, and
    behind the function-entered probe if [j] is the first element. *)
Lemma probe_placement pre j post fid pid0 :
  is_cond_jump j = true →
  ∃ B P T,
    (is_compare_op (EInstr j) = false → P = [])
    ∧ instrumented is_cond_jump fid pid0 (pre ++ EInstr j :: post)
      = let pid := pid0 + Z.of_nat (count_cond_jumps is_cond_jump pre) in
        match last pre with
        | Some x =>
            if is_compare_op x
            then B ++ cmp_predicate_stmts pid (elem_arg x)
                   ++ x :: P ++ EInstr j :: T
            else B ++ x :: bool_predicate_stmts pid ++ P ++ EInstr j :: T
        | None =>
            function_entered_stmts fid
              ++ bool_predicate_stmts pid ++ P ++ EInstr j :: T
        end.
Proof.
  intros Hj. rewrite instrumented_nonempty by (by destruct pre).
  destruct (weave_head
              (pid0 + Z.of_nat (count_cond_jumps is_cond_jump (pre ++ [EInstr j])))
              (EInstr j) post) as (P & T & HPT & HP).
  destruct (last pre) as [x|] eqn:Hlast.
  - destruct (weave_split pre pid0 (I0 "POP_TOP") (EInstr j) post) as (W & HW).
    rewrite HW, HPT, Hlast. unfold visited_prefix. cbn [is_cond_jump_elem default].
    rewrite Hj. cbn zeta.
    exists (take 4 (function_entered_stmts fid) ++ W), P, T.
    split; [exact HP |]. unfold id.
    destruct (is_compare_op x); cbn [app]; by rewrite <- !app_assoc.
  - apply last_None in Hlast. subst pre. cbn [app] in *.
    rewrite <- (app_nil_l (weave _ _ _ _)), weave_visited.
    unfold visited_prefix. cbn [is_cond_jump_elem].
    rewrite Hj. change (is_compare_op (I0 "POP_TOP")) with false. cbn iota.
    rewrite count_cond_jumps_cons in HPT. cbn [is_cond_jump_elem] in HPT.
    rewrite Hj in HPT. change (Z.of_nat (count_cond_jumps is_cond_jump [])) with 0.
    change (Z.of_nat (S (count_cond_jumps is_cond_jump []))) with 1 in HPT.
    rewrite HPT. cbn zeta. rewrite Z.add_0_r.
    exists [], P, T. split; [exact HP |].
    change (function_entered_stmts fid)
      with (take 4 (function_entered_stmts fid) ++ [I0 "POP_TOP"]).
    cbn [app]. by rewrite <- !app_assoc.
Qed.

(** The predicate registered for a conditional jump is the one that the
    counter held when the jumps in front of it had been registered. *)
Lemma predicate_registered_in_turn pre e post st :
  is_cond_jump_elem is_cond_jump e = true →
  ∃ events,
    trace (snd (instrument_instructions is_cond_jump (pre ++ e :: post) st))
    = trace st ++ events
    ∧ predicate_ids events !! count_cond_jumps is_cond_jump pre
      = Some (_predicate_id st + Z.of_nat (count_cond_jumps is_cond_jump pre)).
Proof.
  intros He. rewrite instrument_instructions_eq. cbn [snd].
  destruct (pre ++ e :: post) as [|e0 l0] eqn:Hl; [by destruct pre |].
  rewrite <- Hl.
  destruct (register_predicates_spec
              (count_cond_jumps is_cond_jump (pre ++ e :: post))
              (register_function st)) as (_ & _ & _ & _ & _ & Htr).
  rewrite Htr. cbn [register_function with_function_id with_event trace _predicate_id].
  rewrite <- app_assoc. eexists. split; [reflexivity |].
  rewrite predicate_ids_app, predicate_ids_predicate_exists. cbn [predicate_ids omap app].
  apply lookup_seqZ. split; [done |].
  rewrite count_cond_jumps_app, count_cond_jumps_cons, He. lia.
Qed.

(** C2: every conditional jump [j] of the instructions gets a probe with
    the next predicate identifier, the number of conditional jumps in
    front of [j] added to the counter, and this identifier is registered
    with the tracer in its turn.  If the element in front of [j] is a
    [COMPARE_OP] instruction [x], the probe is the comparison probe: the
    nine instructions that duplicate the two operands and call
    [tracer.passed_cmp_predicate] with them, the identifier and the
    argument of [x]; it is put in front of [x], one position back from
    [j].  In every other case, also when [j] is the first instruction, it
    is the boolean probe: the eight instructions that duplicate the top of
    the stack and call [tracer.passed_bool_predicate] with it and the
    identifier; it is put in front of [j].  ([P] is empty unless [j] is
    itself a [COMPARE_OP] that the next conditional jump puts a probe in
    front of.) *)
Theorem C2_comparison_or_boolean_probe pre j post st :
  is_cond_jump j = true →
  ∃ out st' events B P T,
    instrument_instructions is_cond_jump (pre ++ EInstr j :: post) st
    = (Ret out, st')
    ∧ (is_compare_op (EInstr j) = false → P = [])
    ∧ trace st' = trace st ++ events
    ∧ let pid := _predicate_id st
                 + Z.of_nat (count_cond_jumps is_cond_jump pre) in
      predicate_ids events !! count_cond_jumps is_cond_jump pre = Some pid
      ∧ match last pre with
        | Some x =>
            if is_compare_op x
            then out = B ++ [ I0 "DUP_TOP_TWO";
                              I1 "LOAD_GLOBAL" (PStr "tracer");
                              I1 "LOAD_METHOD" (PStr "passed_cmp_predicate");
                              I0 "ROT_FOUR";
                              I0 "ROT_FOUR";
                              I1 "LOAD_CONST" (PInt pid);
                              I1 "LOAD_CONST" (elem_arg x);
                              I1 "CALL_METHOD" (PInt 4);
                              I0 "POP_TOP" ]
                         ++ x :: P ++ EInstr j :: T
            else out = B ++ x :: [ I0 "DUP_TOP";
                                   I1 "LOAD_GLOBAL" (PStr "tracer");
                                   I1 "LOAD_METHOD" (PStr "passed_bool_predicate");
                                   I0 "ROT_THREE";
                                   I0 "ROT_THREE";
                                   I1 "LOAD_CONST" (PInt pid);
                                   I1 "CALL_METHOD" (PInt 2);
                                   I0 "POP_TOP" ]
                         ++ P ++ EInstr j :: T
        | None =>
            out = [ I1 "LOAD_GLOBAL" (PStr "tracer");
                    I1 "LOAD_METHOD" (PStr "entered_function");
                    I1 "LOAD_CONST" (PInt (_function_id st));
                    I1 "CALL_METHOD" (PInt 1);
                    I0 "POP_TOP" ]
                  ++ [ I0 "DUP_TOP";
                       I1 "LOAD_GLOBAL" (PStr "tracer");
                       I1 "LOAD_METHOD" (PStr "passed_bool_predicate");
                       I0 "ROT_THREE";
                       I0 "ROT_THREE";
                       I1 "LOAD_CONST" (PInt pid);
                       I1 "CALL_METHOD" (PInt 2);
                       I0 "POP_TOP" ]
                  ++ P ++ EInstr j :: T
        end.
Proof.
  intros Hj.
  destruct (probe_placement pre j post (_function_id st) (_predicate_id st) Hj)
    as (B & P & T & HP & Hout).
  destruct (predicate_registered_in_turn pre (EInstr j) post st Hj)
    as (events & Htrace & Hid).
  rewrite instrument_instructions_eq in Htrace |- *. cbn [snd] in Htrace.
  eexists _, _, events, B, P, T.
  split; [reflexivity |].
  split; [exact HP |]. split; [exact Htrace |]. cbn zeta.
  split; [exact Hid |]. cbn zeta in Hout.
  destruct (last pre) as [x|]; [destruct (is_compare_op x) |]; exact Hout.
Qed.

End Placement.

(** ** The first instruction *)

Section NoPrevious.

Variable is_cond_jump : Instr → bool.

(** The condition of the walk is false without a call of [previous] when
    [has_previous] is false, whatever that call would return or raise. *)
Lemma previous_not_read (it : ListIterator) st :
  ListIterator.has_previous it = false →
  previous_is_compare_op it st = (Ret false, st).
Proof. intros Hprev. unfold previous_is_compare_op. by rewrite Hprev. Qed.

(** The first iteration of the walk, up to the visit of the first
    element: the function is registered and the function-entered probe
    is in front of the cursor. *)
Lemma first_iteration e rest st :
  instrument_instructions is_cond_jump (e :: rest) st
  = (let* code_iter :=
       visit_current is_cond_jump
         (cursor_at (take 4 (function_entered_stmts (_function_id st)))
            (I0 "POP_TOP") e rest) in
     let* code_iter := walk is_cond_jump (length (e :: rest)) true code_iter in
     ret (ListIterator._to_iterate code_iter)) (register_function st).
Proof.
  unfold instrument_instructions. rewrite walk_S.
  replace (ListIterator.next (ListIterator.init (e :: rest)))
    with (true, {| ListIterator._to_iterate := e :: rest; ListIterator._idx := 0 |}).
  2:{ unfold ListIterator.next, ListIterator.init; simpl.
      by destruct (Z.ltb_spec 0 (Z.pos (Pos.of_succ_nat (length rest)))); [| lia]. }
  cbn [negb]. unfold bind. rewrite _add_function_entered_eq.
  replace (ListIterator.insert_before _ _ 0)
    with (cursor_at (take 4 (function_entered_stmts (_function_id st)))
            (I0 "POP_TOP") e rest) by reflexivity.
  destruct (visit_current is_cond_jump _ (register_function st)) as [[it|ex] st1];
    [| reflexivity].
  by destruct (walk is_cond_jump _ true it st1) as [[it'|ex] st2].
Qed.

(** In the walk a conditional jump that is the first instruction has the
    function-entered probe in front of it; it gets the boolean probe as
    well. *)
Lemma first_instruction_conditional_jump j post st :
  is_cond_jump j = true →
  ∃ P T,
    instrument_instructions is_cond_jump (EInstr j :: post) st
    = (Ret (function_entered_stmts (_function_id st)
             ++ bool_predicate_stmts (_predicate_id st)
             ++ P ++ EInstr j :: T),
       register_predicates (count_cond_jumps is_cond_jump post)
         (register_predicate (register_function st)))
    ∧ (is_compare_op (EInstr j) = false → P = []).
Proof.
  intros Hj. rewrite instrument_instructions_eq.
  rewrite instrumented_nonempty by done. cbn [weave is_cond_jump_elem].
  rewrite Hj. change (is_compare_op (I0 "POP_TOP")) with false. cbn iota.
  destruct (weave_head is_cond_jump (_predicate_id st + 1) (EInstr j) post)
    as (P & T & HPT & HP).
  exists P, T. rewrite HPT. split; [| exact HP].
  rewrite count_cond_jumps_cons. cbn [is_cond_jump_elem]. rewrite Hj.
  rewrite register_predicates_S. reflexivity.
Qed.

(** C8: a conditional jump [j] that is the first instruction of a code
    object has no instruction in front of it.  The walk over such
    instructions raises nothing and puts the boolean probe, the eight
    instructions that call [tracer.passed_bool_predicate] with the next
    predicate identifier, in front of [j], behind the function-entered
    probe; the function and the predicate are registered.  When the walk
    visits [j], its cursor [code_iter] has the function-entered probe in
    front of [j]: [has_previous] is consulted first and is true,
    [previous] is then read and is the [POP_TOP] of that probe, which is
    no comparison, and the visit inserts the boolean probe at the
    cursor.  On any cursor for which [has_previous] is false the
    condition is false without [previous] being read, whatever it would
    return or raise. *)
Theorem C8_no_previous_takes_boolean_path j post st :
  is_cond_jump j = true →
  let entry := [ I1 "LOAD_GLOBAL" (PStr "tracer");
                 I1 "LOAD_METHOD" (PStr "entered_function");
                 I1 "LOAD_CONST" (PInt (_function_id st));
                 I1 "CALL_METHOD" (PInt 1);
                 I0 "POP_TOP" ] in
  let probe := [ I0 "DUP_TOP";
                 I1 "LOAD_GLOBAL" (PStr "tracer");
                 I1 "LOAD_METHOD" (PStr "passed_bool_predicate");
                 I0 "ROT_THREE";
                 I0 "ROT_THREE";
                 I1 "LOAD_CONST" (PInt (_predicate_id st));
                 I1 "CALL_METHOD" (PInt 2);
                 I0 "POP_TOP" ] in
  let code_iter := {| ListIterator._to_iterate := entry ++ EInstr j :: post;
                      ListIterator._idx := 5 |} in
  (∃ P T st',
     instrument_instructions is_cond_jump (EInstr j :: post) st
     = (Ret (entry ++ probe ++ P ++ EInstr j :: T), st')
     ∧ (is_compare_op (EInstr j) = false → P = [])
     ∧ ∃ later,
         trace st' = trace st ++ function_exists (_function_id st)
                                 :: predicate_exists (_predicate_id st) :: later)
  ∧ instrument_instructions is_cond_jump (EInstr j :: post) st
    = (let* code_iter := visit_current is_cond_jump code_iter in
       let* code_iter :=
         walk is_cond_jump (length (EInstr j :: post)) true code_iter in
       ret (ListIterator._to_iterate code_iter)) (register_function st)
  ∧ ListIterator.current code_iter = Some (EInstr j)
  ∧ ListIterator.has_previous code_iter = true
  ∧ ListIterator.previous code_iter = Some (I0 "POP_TOP")
  ∧ previous_is_compare_op code_iter (register_function st)
    = (Ret false, register_function st)
  ∧ visit_current is_cond_jump code_iter (register_function st)
    = (Ret {| ListIterator._to_iterate := entry ++ probe ++ EInstr j :: post;
              ListIterator._idx := 13 |},
       register_predicate (register_function st))
  ∧ ∀ (it : ListIterator) st0,
      ListIterator.has_previous it = false →
      previous_is_compare_op it st0 = (Ret false, st0).
Proof.
  intros Hj entry probe code_iter.
  assert (code_iter
          = cursor_at (take 4 (function_entered_stmts (_function_id st)))
              (I0 "POP_TOP") (EInstr j) post) as Hcursor by reflexivity.
  split_and!.
  - destruct (first_instruction_conditional_jump j post st Hj)
      as (P & T & Hrun & HP).
    exists P, T. eexists. split_and!; [exact Hrun | exact HP |].
    destruct (register_predicates_spec (count_cond_jumps is_cond_jump post)
                (register_predicate (register_function st)))
      as (_ & _ & _ & _ & _ & Htr).
    rewrite Htr. cbn. rewrite <- !app_assoc. by eexists.
  - rewrite Hcursor. apply first_iteration.
  - reflexivity.
  - reflexivity.
  - reflexivity.
  - reflexivity.
  - rewrite Hcursor, visit_current_cursor_at.
    unfold visited_prefix, visited_state. cbn [is_cond_jump_elem]. rewrite Hj.
    reflexivity.
  - apply previous_not_read.
Qed.

End NoPrevious.

(** ** The probes on the evaluation stack *)

(** C3: over each of the three probes, the depth of the evaluation stack
    changes by zero. *)
Theorem C3_probes_are_stack_neutral predicate_id function_id cmp_op_arg :
  Stack.net_stack_effect (function_entered_stmts function_id) = Some 0
  ∧ Stack.net_stack_effect (bool_predicate_stmts predicate_id) = Some 0
  ∧ Stack.net_stack_effect (cmp_predicate_stmts predicate_id cmp_op_arg) = Some 0.
Proof. split_and!; reflexivity. Qed.

(** The probes leave the stack as they found it, value by value, and
    call the tracer with the values they duplicated. *)
Lemma exec_function_entered_stmts fid s cs :
  Stack.exec (function_entered_stmts fid) {| Stack.stack := s; Stack.calls := cs |}
  = Some {| Stack.stack := s;
            Stack.calls := cs ++ [tracer_call entered_function
                                    [Stack.SLoad "LOAD_CONST" (PInt fid)]] |}.
Proof. reflexivity. Qed.

Lemma exec_bool_predicate_stmts pid v s cs :
  Stack.exec (bool_predicate_stmts pid) {| Stack.stack := v :: s; Stack.calls := cs |}
  = Some {| Stack.stack := v :: s;
            Stack.calls := cs ++ [tracer_call passed_bool_predicate
                                    [v; Stack.SLoad "LOAD_CONST" (PInt pid)]] |}.
Proof. reflexivity. Qed.

Lemma exec_cmp_predicate_stmts pid op rhs lhs s cs :
  Stack.exec (cmp_predicate_stmts pid op)
    {| Stack.stack := rhs :: lhs :: s; Stack.calls := cs |}
  = Some {| Stack.stack := rhs :: lhs :: s;
            Stack.calls := cs ++ [tracer_call passed_cmp_predicate
                                    [lhs; rhs;
                                     Stack.SLoad "LOAD_CONST" (PInt pid);
                                     Stack.SLoad "LOAD_CONST" op]] |}.
Proof. reflexivity. Qed.

(** ** A comparison and a jump *)

(** C6: the instructions [LOAD a; LOAD b; COMPARE (<); JUMP_IF_FALSE L],
    instrumented with the next predicate identifier 7, become: the
    function-entered probe, the two loads, the comparison probe, the
    comparison and the jump.  Run after the two loads, the probe leaves
    [a] and [b] on the stack for the comparison and calls
    [tracer.passed_cmp_predicate(a, b, 7, <)], whose result it pops. *)
Theorem C6_comparison_probe_scenario (a b : string) (L : nat) (st : State) :
  instrument_instructions name_is_cond_jump
    [ I1 "LOAD_FAST" (PStr a); I1 "LOAD_FAST" (PStr b);
      I1 "COMPARE_OP" (PCompare LT); I1 "POP_JUMP_IF_FALSE" (PLabel L) ]
    (with_predicate_id 7 st)
  = (Ret (function_entered_stmts (_function_id st)
          ++ [ I1 "LOAD_FAST" (PStr a); I1 "LOAD_FAST" (PStr b) ]
          ++ [ I0 "DUP_TOP_TWO";
               I1 "LOAD_GLOBAL" (PStr "tracer");
               I1 "LOAD_METHOD" (PStr "passed_cmp_predicate");
               I0 "ROT_FOUR"; I0 "ROT_FOUR";
               I1 "LOAD_CONST" (PInt 7);
               I1 "LOAD_CONST" (PCompare LT);
               I1 "CALL_METHOD" (PInt 4);
               I0 "POP_TOP" ]
          ++ [ I1 "COMPARE_OP" (PCompare LT); I1 "POP_JUMP_IF_FALSE" (PLabel L) ]),
     register_predicate (register_function (with_predicate_id 7 st)))
  ∧ Stack.exec
      ([ I1 "LOAD_FAST" (PStr a); I1 "LOAD_FAST" (PStr b) ]
       ++ cmp_predicate_stmts 7 (PCompare LT))
      {| Stack.stack := []; Stack.calls := [] |}
    = Some {| Stack.stack := [ Stack.SLoad "LOAD_FAST" (PStr b);
                               Stack.SLoad "LOAD_FAST" (PStr a) ];
              Stack.calls :=
                [ tracer_call "passed_cmp_predicate"
                    [ Stack.SLoad "LOAD_FAST" (PStr a);
                      Stack.SLoad "LOAD_FAST" (PStr b);
                      Stack.SLoad "LOAD_CONST" (PInt 7);
                      Stack.SLoad "LOAD_CONST" (PCompare LT) ] ] |}.
Proof.
  split; [| reflexivity].
  rewrite instrument_instructions_eq. reflexivity.
Qed.

Lemma C1_witness :
  Examples.compare_and_jump ≠ []
  ∧ ∃ new_consts st_consts out st' probes,
      for_consts (_instrument_code_recursive name_is_cond_jump)
        (co_consts Examples.outer_code) Examples.fresh
      = (Ret new_consts, st_consts)
      ∧ _instrument_code_recursive name_is_cond_jump
          (mkCode (co_consts Examples.outer_code) Examples.compare_and_jump)
          Examples.fresh
        = (Ret (mkCode new_consts out), st')
      ∧ Inserted Examples.compare_and_jump
          (function_entered_stmts (_function_id st_consts) :: probes) out
      ∧ length probes = count_cond_jumps name_is_cond_jump Examples.compare_and_jump
      ∧ Forall2 predicate_probe
          (seqZ (_predicate_id st_consts) (Z.of_nat (length probes))) probes
      ∧ trace st'
        = trace st_consts
            ++ function_exists (_function_id st_consts)
            :: (predicate_exists
                  <$> seqZ (_predicate_id st_consts) (Z.of_nat (length probes)))
      ∧ _function_id st' = _function_id st_consts + 1
      ∧ _predicate_id st' = _predicate_id st_consts + Z.of_nat (length probes).
Proof.
  split; [done |].
  apply (C1_one_entry_probe_and_k_predicate_probes name_is_cond_jump
           (co_consts Examples.outer_code) Examples.compare_and_jump Examples.fresh).
  done.
Defined.

(** The claim C1 as it stands fails on a code object without
    instructions: it has [k = 0] conditional jumps, and the result has no
    function-entered probe and no function was registered. *)
Lemma C1_counterexample_no_instructions :
  count_cond_jumps name_is_cond_jump [] = 0%nat
  ∧ _instrument_code_recursive name_is_cond_jump (mkCode [] []) Examples.fresh
    = (Ret (mkCode [] []), Examples.fresh)
  ∧ ∀ function_id probes,
      ¬ Inserted [] (function_entered_stmts function_id :: probes) [].
Proof.
  split_and!; [reflexivity | reflexivity |].
  intros fid probes H. inversion H.
Qed.

(** The claim C9 as it stands fails: the code object without instructions
    comes back without instructions, not with the function-entered probe,
    and the function counter is where it was. *)
Lemma C9_counterexample_entry_probe_missing :
  fst (_instrument_code_recursive name_is_cond_jump Examples.empty_code Examples.fresh)
  = Ret Examples.empty_code
  ∧ co_code Examples.empty_code ≠ function_entered_stmts 0
  ∧ _function_id
      (snd (_instrument_code_recursive name_is_cond_jump
              Examples.empty_code Examples.fresh)) = 0
  ∧ function_ids
      (trace (snd (_instrument_code_recursive name_is_cond_jump
                     Examples.empty_code Examples.fresh))) = [].
Proof. split_and!; [reflexivity | discriminate | reflexivity | reflexivity]. Qed.

Lemma C2_witness :
  name_is_cond_jump Examples.POP_JUMP_IF_FALSE = true
  ∧ ∃ out st' events B P T,
      instrument_instructions name_is_cond_jump
        ([ I1 "LOAD_FAST" (PStr "a"); I1 "LOAD_FAST" (PStr "b");
           I1 "COMPARE_OP" (PCompare LT) ]
         ++ EInstr Examples.POP_JUMP_IF_FALSE :: []) Examples.fresh
      = (Ret out, st')
      ∧ (is_compare_op (EInstr Examples.POP_JUMP_IF_FALSE) = false → P = [])
      ∧ trace st' = trace Examples.fresh ++ events
      ∧ predicate_ids events !! 0%nat = Some 0
      ∧ out = B ++ [ I0 "DUP_TOP_TWO";
                     I1 "LOAD_GLOBAL" (PStr "tracer");
                     I1 "LOAD_METHOD" (PStr "passed_cmp_predicate");
                     I0 "ROT_FOUR";
                     I0 "ROT_FOUR";
                     I1 "LOAD_CONST" (PInt 0);
                     I1 "LOAD_CONST" (PCompare LT);
                     I1 "CALL_METHOD" (PInt 4);
                     I0 "POP_TOP" ]
                ++ I1 "COMPARE_OP" (PCompare LT)
                :: P ++ EInstr Examples.POP_JUMP_IF_FALSE :: T.
Proof.
  split; [reflexivity |].
  apply (C2_comparison_or_boolean_probe name_is_cond_jump
           [ I1 "LOAD_FAST" (PStr "a"); I1 "LOAD_FAST" (PStr "b");
             I1 "COMPARE_OP" (PCompare LT) ]
           Examples.POP_JUMP_IF_FALSE [] Examples.fresh).
  reflexivity.
Defined.

(** [if not flag: return None], with the jump as the first instruction
    of the walk: the cursor on the jump has the five instructions of the
    function-entered probe in front of it. *)
Lemma C8_witness :
  let entry := [ I1 "LOAD_GLOBAL" (PStr "tracer");
                 I1 "LOAD_METHOD" (PStr "entered_function");
                 I1 "LOAD_CONST" (PInt 0);
                 I1 "CALL_METHOD" (PInt 1);
                 I0 "POP_TOP" ] in
  let probe := [ I0 "DUP_TOP";
                 I1 "LOAD_GLOBAL" (PStr "tracer");
                 I1 "LOAD_METHOD" (PStr "passed_bool_predicate");
                 I0 "ROT_THREE";
                 I0 "ROT_THREE";
                 I1 "LOAD_CONST" (PInt 0);
                 I1 "CALL_METHOD" (PInt 2);
                 I0 "POP_TOP" ] in
  let l := EInstr Examples.POP_JUMP_IF_FALSE :: MoreExamples.return_none in
  let code_iter := {| ListIterator._to_iterate := entry ++ l;
                      ListIterator._idx := 5 |} in
  name_is_cond_jump Examples.POP_JUMP_IF_FALSE = true
  ∧ (∃ P T st',
       instrument_instructions name_is_cond_jump l Examples.fresh
       = (Ret (entry ++ probe ++ P ++ EInstr Examples.POP_JUMP_IF_FALSE :: T), st')
       ∧ (is_compare_op (EInstr Examples.POP_JUMP_IF_FALSE) = false → P = [])
       ∧ ∃ later,
           trace st' = trace Examples.fresh
                       ++ function_exists 0 :: predicate_exists 0 :: later)
  ∧ instrument_instructions name_is_cond_jump l Examples.fresh
    = (let* code_iter := visit_current name_is_cond_jump code_iter in
       let* code_iter := walk name_is_cond_jump (length l) true code_iter in
       ret (ListIterator._to_iterate code_iter)) (register_function Examples.fresh)
  ∧ ListIterator.current code_iter = Some (EInstr Examples.POP_JUMP_IF_FALSE)
  ∧ ListIterator.has_previous code_iter = true
  ∧ ListIterator.previous code_iter = Some (I0 "POP_TOP")
  ∧ previous_is_compare_op code_iter (register_function Examples.fresh)
    = (Ret false, register_function Examples.fresh)
  ∧ visit_current name_is_cond_jump code_iter (register_function Examples.fresh)
    = (Ret {| ListIterator._to_iterate := entry ++ probe ++ l;
              ListIterator._idx := 13 |},
       register_predicate (register_function Examples.fresh))
  ∧ ∀ (it : ListIterator) st0,
      ListIterator.has_previous it = false →
      previous_is_compare_op it st0 = (Ret false, st0).
Proof.
  intros entry probe l code_iter. split; [reflexivity |].
  apply (C8_no_previous_takes_boolean_path name_is_cond_jump
           Examples.POP_JUMP_IF_FALSE MoreExamples.return_none Examples.fresh).
  reflexivity.
Defined.

(** The whole walk over these instructions: the jump keeps its place
    behind the two probes, and nothing else is inserted. *)
Example first_jump_instrumented :
  fst (instrument_instructions name_is_cond_jump
         (EInstr Examples.POP_JUMP_IF_FALSE :: MoreExamples.return_none)
         Examples.fresh)
  = Ret [ I1 "LOAD_GLOBAL" (PStr "tracer");
          I1 "LOAD_METHOD" (PStr "entered_function");
          I1 "LOAD_CONST" (PInt 0);
          I1 "CALL_METHOD" (PInt 1);
          I0 "POP_TOP";
          I0 "DUP_TOP";
          I1 "LOAD_GLOBAL" (PStr "tracer");
          I1 "LOAD_METHOD" (PStr "passed_bool_predicate");
          I0 "ROT_THREE";
          I0 "ROT_THREE";
          I1 "LOAD_CONST" (PInt 0);
          I1 "CALL_METHOD" (PInt 2);
          I0 "POP_TOP";
          I1 "POP_JUMP_IF_FALSE" (PLabel 0);
          I1 "LOAD_CONST" PNone;
          I0 "RETURN_VALUE" ].
Proof. reflexivity. Qed.

(** A cursor for which [previous] would raise an IndexError: the walk
    does not call it. *)
Example no_previous_no_index_error :
  let it := {| ListIterator._to_iterate := [ EInstr Examples.POP_JUMP_IF_FALSE ];
               ListIterator._idx := -1 |} in
  ListIterator.previous it = None
  ∧ visit_current name_is_cond_jump it Examples.fresh
    = (Ret {| ListIterator._to_iterate :=
                bool_predicate_stmts 0 ++ [ EInstr Examples.POP_JUMP_IF_FALSE ];
              ListIterator._idx := 7 |},
       register_predicate Examples.fresh).
Proof. split; reflexivity. Qed.

(** ** Instrumenting a function *)

Section FunctionFacts.

Variable is_cond_jump : Instr → bool.

Lemma instrument_function_marked f fn v st :
  functions st !! f = Some fn →
  fn_dict fn !! _INSTRUMENTED_FLAG = Some v →
  instrument_function is_cond_jump f st = (Raise AssertionError, st).
Proof.
  intros Hf Hflag. unfold instrument_function, bind at 1.
  rewrite Hf. cbn [or_raise ret]. by rewrite Hflag.
Qed.

Lemma instrument_function_dangling f st :
  functions st !! f = None →
  instrument_function is_cond_jump f st = (Raise DanglingRef, st).
Proof.
  intros Hf. unfold instrument_function, bind at 1. by rewrite Hf.
Qed.

Lemma instrument_function_unmarked f fn globals st :
  functions st !! f = Some fn →
  fn_dict fn !! _INSTRUMENTED_FLAG = None →
  namespaces st !! fn_globals fn = Some globals →
  ∃ code st_code,
    _instrument_code_recursive is_cond_jump (fn_code fn)
      (marked_and_installed f fn globals st) = (Ret code, st_code)
    ∧ registers_only (marked_and_installed f fn globals st) st_code
    ∧ instrument_function is_cond_jump f st
      = (Ret tt, code_replaced f fn code st_code).
Proof.
  intros Hf Hflag Hns.
  destruct (_instrument_code_recursive_total is_cond_jump (fn_code fn)
              (marked_and_installed f fn globals st))
    as (code & st_code & Hcode & Hreg).
  exists code, st_code. split_and!; [done | done |].
  unfold instrument_function, bind at 1.
  rewrite Hf. cbn [or_raise ret]. rewrite Hflag.
  unfold bind, modify, emit, modify, gets. cbn [namespaces with_event with_functions
    fn_globals _tracer].
  rewrite Hns. cbn [or_raise ret].
  match goal with
  | |- (let (o, st') := ?m in _) = _ =>
      change m with (_instrument_code_recursive is_cond_jump (fn_code fn)
                       (marked_and_installed f fn globals st))
  end.
  by rewrite Hcode.
Qed.

Lemma instrument_function_unmarked_dangling f fn st :
  functions st !! f = Some fn →
  fn_dict fn !! _INSTRUMENTED_FLAG = None →
  namespaces st !! fn_globals fn = None →
  instrument_function is_cond_jump f st
  = (Raise DanglingRef,
     with_event (set_attribute f _INSTRUMENTED_FLAG)
       (with_functions (<[f := marked fn]> (functions st)) st)).
Proof.
  intros Hf Hflag Hns. unfold instrument_function, bind at 1.
  rewrite Hf. cbn [or_raise ret]. rewrite Hflag.
  unfold bind, modify, emit, modify, gets. cbn [namespaces with_event with_functions
    fn_globals _tracer].
  by rewrite Hns.
Qed.

Lemma trace_marked_and_installed f fn globals st :
  trace (marked_and_installed f fn globals st)
  = trace st ++ [set_attribute f _INSTRUMENTED_FLAG;
                 set_global (fn_globals fn) _TRACER_NAME].
Proof. cbn. by rewrite <- app_assoc. Qed.

(** C4: [instrument_function] on a function that carries the flag raises
    the AssertionError and leaves the state as it was: no attribute, no
    namespace, no code and no counter has changed, and the tracer was not
    called.  On a function without the flag, the call returns; the code is
    rewritten in a state in which the function already carries the flag and
    still has its old code, and in the trace the flag is set before
    anything else happens and the code is replaced last. *)
Theorem C4_assertion_guards_instrumentation f fn st :
  functions st !! f = Some fn →
  match fn_dict fn !! _INSTRUMENTED_FLAG with
  | Some _ =>
      instrument_function is_cond_jump f st = (Raise AssertionError, st)
  | None =>
      ∀ globals, namespaces st !! fn_globals fn = Some globals →
      ∃ code st_code events,
        functions (marked_and_installed f fn globals st) !! f = Some (marked fn)
        ∧ fn_dict (marked fn) !! _INSTRUMENTED_FLAG = Some (PBool true)
        ∧ fn_code (marked fn) = fn_code fn
        ∧ _instrument_code_recursive is_cond_jump (fn_code fn)
            (marked_and_installed f fn globals st) = (Ret code, st_code)
        ∧ instrument_function is_cond_jump f st
          = (Ret tt, code_replaced f fn code st_code)
        ∧ functions (code_replaced f fn code st_code) !! f
          = Some (with_code code (marked fn))
        ∧ trace (code_replaced f fn code st_code)
          = trace st
              ++ set_attribute f _INSTRUMENTED_FLAG
              :: set_global (fn_globals fn) _TRACER_NAME
              :: events ++ [set_code f]
        ∧ Forall is_registration events
  end.
Proof.
  intros Hf. destruct (fn_dict fn !! _INSTRUMENTED_FLAG) as [v|] eqn:Hflag.
  - by eapply instrument_function_marked.
  - intros globals Hns.
    destruct (instrument_function_unmarked f fn globals st Hf Hflag Hns)
      as (code & st_code & Hcode & (events & Hext & _ & Hreg) & Hrun).
    exists code, st_code, events. split_and!; try done.
    + cbn. by rewrite lookup_insert_eq.
    + cbn. by rewrite lookup_insert_eq.
    + cbn. by rewrite lookup_insert_eq.
    + destruct Hext as (Htr & _). cbn [code_replaced trace with_event with_functions].
      rewrite Htr, trace_marked_and_installed. by rewrite <- !app_assoc.
Qed.

(** C10 (as amended): [instrument_function] on a function without the
    flag binds the name [tracer] to the tracer in the global namespace of
    the function, in place of whatever was bound to it, and changes no
    other entry of this namespace and no other namespace. *)
Theorem C10_tracer_bound_in_globals f fn globals st :
  functions st !! f = Some fn →
  fn_dict fn !! _INSTRUMENTED_FLAG = None →
  namespaces st !! fn_globals fn = Some globals →
  ∃ st',
    instrument_function is_cond_jump f st = (Ret tt, st')
    ∧ namespaces st'
      = <[fn_globals fn := <[_TRACER_NAME := _tracer st]> globals]> (namespaces st)
    ∧ ∃ globals',
        namespaces st' !! fn_globals fn = Some globals'
        ∧ globals' !! _TRACER_NAME = Some (_tracer st)
        ∧ (∀ key, key ≠ _TRACER_NAME → globals' !! key = globals !! key)
        ∧ (∀ g, g ≠ fn_globals fn → namespaces st' !! g = namespaces st !! g).
Proof.
  intros Hf Hflag Hns.
  destruct (instrument_function_unmarked f fn globals st Hf Hflag Hns)
    as (code & st_code & _ & (events & _ & (_ & _ & Hsame) & _) & Hrun).
  eexists. split; [exact Hrun |].
  assert (namespaces (code_replaced f fn code st_code)
          = <[fn_globals fn := <[_TRACER_NAME := _tracer st]> globals]> (namespaces st))
    as Heq by (cbn [code_replaced namespaces with_event with_functions]; by rewrite Hsame).
  split; [exact Heq |].
  exists (<[_TRACER_NAME := _tracer st]> globals). rewrite Heq. split_and!.
  - by rewrite lookup_insert_eq.
  - by rewrite lookup_insert_eq.
  - intros key Hkey. by rewrite lookup_insert_ne.
  - intros g Hg. by rewrite lookup_insert_ne.
Qed.

End FunctionFacts.

(** ** Relations that every step of [instrument] keeps *)

Section Preserved.

Variable is_cond_jump : Instr → bool.
Variable inspect : Inspect.

(** A reflexive and transitive relation between states. *)
Variable R : State → State → Prop.
Hypothesis R_refl : ∀ st, R st st.
Hypothesis R_trans : ∀ st1 st2 st3, R st1 st2 → R st2 st3 → R st1 st3.

Lemma bind_preserves {A B} (m : M A) (k : A → M B) st :
  R st (snd (m st)) →
  (∀ a st1, R st1 (snd (k a st1))) →
  R st (snd (bind m k st)).
Proof.
  intros Hm Hk. unfold bind. destruct (m st) as [[a|e] st1]; cbn [snd] in *.
  - eapply R_trans; [exact Hm | apply Hk].
  - exact Hm.
Qed.

(** [instrument] changes the state only through [instrument_function]
    and through the calls of [getmembers]. *)
Hypothesis R_instrument_function :
  ∀ f st, R st (snd (instrument_function is_cond_jump f st)).
Hypothesis R_getmembers :
  ∀ obj st, R st (with_event (getmembers_of obj) st).

Lemma for_members_preserves recurse :
  (∀ obj seen st, R st (snd (recurse obj seen st))) →
  ∀ members seen st,
    R st (snd (for_members is_cond_jump inspect recurse members seen st)).
Proof.
  intros Hrec. induction members as [|[n value] members IH]; intros seen st.
  - apply R_refl.
  - cbn [for_members]. apply bind_preserves.
    { destruct (isfunction inspect value); [apply R_instrument_function | apply R_refl]. }
    intros _ st1. apply bind_preserves.
    { destruct (isclass inspect value || ismethod inspect value);
        [apply Hrec | apply R_refl]. }
    intros seen1 st2. apply IH.
Qed.

Lemma instrument_preserves fuel : ∀ obj seen st,
  R st (snd (instrument is_cond_jump inspect fuel obj seen st)).
Proof.
  induction fuel as [|fuel IH]; intros obj seen st; cbn [instrument].
  - apply R_refl.
  - destruct (bool_decide _); [apply R_refl |].
    apply bind_preserves; [apply R_getmembers |]. intros _ st1.
    apply bind_preserves; [by apply for_members_preserves |].
    intros seen1 st2. apply R_refl.
Qed.

End Preserved.

(** ** The identifiers of one run *)

Lemma counts_up_refl st : counts_up st st.
Proof. exists []. apply extends_ids_refl. Qed.

Lemma counts_up_trans st1 st2 st3 :
  counts_up st1 st2 → counts_up st2 st3 → counts_up st1 st3.
Proof.
  intros (ev1 & H1) (ev2 & H2). exists (ev1 ++ ev2). by eapply extends_ids_trans.
Qed.

Lemma registers_only_counts_up st st' : registers_only st st' → counts_up st st'.
Proof. intros (events & H & _). by exists events. Qed.

(** An event that is no registration leaves the identifiers alone. *)
Lemma counts_up_with_event e st :
  ¬ is_registration e → counts_up st (with_event e st).
Proof.
  intros He. exists [e]. unfold extends_ids.
  destruct e; cbn in *; rewrite ?Z.add_0_r; done.
Qed.

Lemma counts_up_with_functions fs st : counts_up st (with_functions fs st).
Proof.
  exists []. unfold extends_ids. cbn. rewrite app_nil_r, !Z.add_0_r. done.
Qed.

Lemma counts_up_with_namespaces ns st : counts_up st (with_namespaces ns st).
Proof.
  exists []. unfold extends_ids. cbn. rewrite app_nil_r, !Z.add_0_r. done.
Qed.

Lemma instrument_function_counts_up is_cond_jump f st :
  counts_up st (snd (instrument_function is_cond_jump f st)).
Proof.
  unfold instrument_function.
  apply (bind_preserves counts_up counts_up_trans).
  { destruct (functions st !! f); apply counts_up_refl. }
  intros fn st1. destruct (fn_dict fn !! _INSTRUMENTED_FLAG); [apply counts_up_refl |].
  repeat (apply (bind_preserves counts_up counts_up_trans); [| intros ? ?]);
    cbn [modify emit gets snd];
    try apply counts_up_refl;
    try apply counts_up_with_functions;
    try apply counts_up_with_namespaces;
    try (apply counts_up_with_event; cbn; tauto).
  - match goal with
    | |- counts_up ?s (snd (or_raise _ ?o ?s)) => destruct o; apply counts_up_refl
    end.
  - match goal with
    | |- counts_up ?s (snd (_instrument_code_recursive _ ?c ?s)) =>
        destruct (_instrument_code_recursive_total is_cond_jump c s)
          as (code & st' & Hcode & Hreg)
    end.
    rewrite Hcode. by apply registers_only_counts_up.
Qed.

Lemma instrument_counts_up is_cond_jump inspect fuel obj seen st :
  counts_up st (snd (instrument is_cond_jump inspect fuel obj seen st)).
Proof.
  apply (instrument_preserves is_cond_jump inspect counts_up
           counts_up_refl counts_up_trans).
  - apply instrument_function_counts_up.
  - intros o st1. apply counts_up_with_event. cbn; tauto.
Qed.

Lemma StronglySorted_seqZ m (k : nat) : StronglySorted Z.lt (seqZ m (Z.of_nat k)).
Proof.
  revert m. induction k as [|k IH]; intros m.
  - constructor.
  - rewrite seqZ_succ_cons. constructor; [apply IH |].
    apply Forall_seqZ. intros; lia.
Qed.

(** C5: in a run of [instrument] on a new [BranchInstrumentation]
    object, whatever the objects, the fuel and the outcome, the predicate
    identifiers registered with the tracer are 0, 1, 2, ... in this order:
    distinct, not negative, increasing; so are the function identifiers.
    Each counter ends at the number of its own registrations, and the probe
    functions of the one kind leave the counter of the other kind alone. *)
Theorem C5_identifiers_are_consecutive
    is_cond_jump inspect fuel root seen tracer fs ns :
  let st' := snd (instrument is_cond_jump inspect fuel root seen
                    (__init__ tracer fs ns)) in
  let pids := predicate_ids (trace st') in
  let fids := function_ids (trace st') in
  (pids = seqZ 0 (Z.of_nat (length pids))
   ∧ NoDup pids ∧ Forall (λ n, 0 ≤ n) pids ∧ StronglySorted Z.lt pids
   ∧ _predicate_id st' = Z.of_nat (length pids))
  ∧ (fids = seqZ 0 (Z.of_nat (length fids))
     ∧ NoDup fids ∧ Forall (λ n, 0 ≤ n) fids ∧ StronglySorted Z.lt fids
     ∧ _function_id st' = Z.of_nat (length fids))
  ∧ (∀ it st,
       _function_id (snd (_add_bool_predicate it st)) = _function_id st
       ∧ _function_id (snd (_add_cmp_predicate it st)) = _function_id st
       ∧ _predicate_id (snd (_add_function_entered it st)) = _predicate_id st).
Proof.
  intros st' pids fids.
  destruct (instrument_counts_up is_cond_jump inspect fuel root seen
              (__init__ tracer fs ns))
    as (events & Htr & Hp & Hf & Hpid & Hfid).
  fold st' in Htr, Hpid, Hfid. cbn in Htr, Hp, Hf, Hpid, Hfid.
  assert (pids = predicate_ids events) as Hpids by (unfold pids; by rewrite Htr).
  assert (fids = function_ids events) as Hfids by (unfold fids; by rewrite Htr).
  rewrite <- Hpids in Hp, Hpid. rewrite <- Hfids in Hf, Hfid.
  split_and!; try done.
  - rewrite Hp. apply NoDup_seqZ.
  - rewrite Hp. apply Forall_seqZ. intros; lia.
  - rewrite Hp. apply StronglySorted_seqZ.
  - rewrite Hf. apply NoDup_seqZ.
  - rewrite Hf. apply Forall_seqZ. intros; lia.
  - rewrite Hf. apply StronglySorted_seqZ.
  - intros it st. split_and!; try reflexivity.
    unfold _add_cmp_predicate, bind.
    by destruct (ListIterator.previous it) as [[]|].
Qed.

(** ** No function is rewritten twice *)

Lemma rewritten_app t1 t2 : rewritten (t1 ++ t2) = rewritten t1 ++ rewritten t2.
Proof. apply omap_app. Qed.

Lemma visited_app t1 t2 : visited (t1 ++ t2) = visited t1 ++ visited t2.
Proof. apply omap_app. Qed.

Lemma rewritten_registrations events :
  Forall is_registration events → rewritten events = [].
Proof.
  induction 1 as [|e events He _ IH]; [done |].
  destruct e; cbn in *; done.
Qed.

Lemma visited_registrations events :
  Forall is_registration events → visited events = [].
Proof.
  induction 1 as [|e events He _ IH]; [done |].
  destruct e; cbn in *; done.
Qed.

Lemma rewrites_once_refl st : rewrites_once st st.
Proof.
  exists []. rewrite app_nil_r. split_and!; [done | constructor | | done].
  intros f Hf. by apply elem_of_nil in Hf.
Qed.

Lemma rewrites_once_trans st1 st2 st3 :
  rewrites_once st1 st2 → rewrites_once st2 st3 → rewrites_once st1 st3.
Proof.
  intros (ev1 & Ht1 & Hnd1 & Hr1 & Hm1) (ev2 & Ht2 & Hnd2 & Hr2 & Hm2).
  exists (ev1 ++ ev2). rewrite rewritten_app. split_and!.
  - by rewrite Ht2, Ht1, <- app_assoc.
  - apply NoDup_app. split_and!; [done | | done].
    intros f Hf1 Hf2. destruct (Hr1 f Hf1) as [_ Hflag].
    by destruct (Hr2 f Hf2) as [Hnot _].
  - intros f [Hf|Hf]%elem_of_app.
    + destruct (Hr1 f Hf) as [Hnot Hflag]. split; [done | by apply Hm2].
    + destruct (Hr2 f Hf) as [Hnot Hflag]. split; [| done].
      intros Hflag1. by apply Hnot, Hm1.
  - intros f Hf. by apply Hm2, Hm1.
Qed.

Lemma rewrites_once_getmembers obj st :
  rewrites_once st (with_event (getmembers_of obj) st).
Proof.
  exists [getmembers_of obj]. split_and!; [done | constructor | | done].
  intros f Hf. by apply elem_of_nil in Hf.
Qed.

Lemma flagged_marked f fn fs st :
  functions st = <[f := fn]> fs →
  is_Some (fn_dict fn !! _INSTRUMENTED_FLAG) →
  flagged st f.
Proof. intros Hfs Hflag. exists fn. by rewrite Hfs, lookup_insert_eq. Qed.

Lemma flagged_insert f fn st0 st f' :
  functions st = <[f := fn]> (functions st0) →
  is_Some (fn_dict fn !! _INSTRUMENTED_FLAG) →
  flagged st0 f' → flagged st f'.
Proof.
  intros Hfs Hflag (fn' & Hf' & Hflag'). destruct (decide (f = f')) as [<-|Hne].
  - by eapply flagged_marked.
  - exists fn'. by rewrite Hfs, lookup_insert_ne.
Qed.

Lemma instrument_function_rewrites_once is_cond_jump f st :
  rewrites_once st (snd (instrument_function is_cond_jump f st)).
Proof.
  destruct (functions st !! f) as [fn|] eqn:Hf.
  2:{ rewrite instrument_function_dangling by done. apply rewrites_once_refl. }
  destruct (fn_dict fn !! _INSTRUMENTED_FLAG) as [v|] eqn:Hflag.
  { erewrite instrument_function_marked by done. apply rewrites_once_refl. }
  assert (is_Some (fn_dict (marked fn) !! _INSTRUMENTED_FLAG)) as Hmarked
    by (cbn; rewrite lookup_insert_eq; by eexists).
  destruct (namespaces st !! fn_globals fn) as [globals|] eqn:Hns.
  - destruct (instrument_function_unmarked is_cond_jump f fn globals st Hf Hflag Hns)
      as (code & st_code & _ & (events & (Htr & _) & (_ & Hfs & _) & Hreg) & Hrun).
    rewrite Hrun. cbn [snd].
    exists (set_attribute f _INSTRUMENTED_FLAG
            :: set_global (fn_globals fn) _TRACER_NAME :: events ++ [set_code f]).
    assert (rewritten (set_attribute f _INSTRUMENTED_FLAG
              :: set_global (fn_globals fn) _TRACER_NAME :: events ++ [set_code f])
            = [f]) as Hrw.
    { change (rewritten (?a :: ?b :: ?l)) with (rewritten l).
      by rewrite rewritten_app, rewritten_registrations. }
    rewrite Hrw. split_and!.
    + cbn [code_replaced trace with_event with_functions].
      rewrite Htr, trace_marked_and_installed. by rewrite <- !app_assoc.
    + apply NoDup_singleton.
    + intros f' ->%list_elem_of_singleton. split.
      * intros (fn' & Hf' & Hflag'). rewrite Hf in Hf'. injection Hf' as <-.
        rewrite Hflag in Hflag'. by destruct Hflag'.
      * by eapply flagged_marked.
    + intros f'. apply (flagged_insert f (with_code code (marked fn))); [| done].
      cbn [code_replaced functions with_event with_functions]. rewrite Hfs.
      cbn [marked_and_installed functions with_event with_functions with_namespaces].
      by rewrite insert_insert_eq.
  - rewrite (instrument_function_unmarked_dangling is_cond_jump f fn st) by done.
    cbn [snd]. exists [set_attribute f _INSTRUMENTED_FLAG].
    split_and!; [done | constructor | |].
    + intros f' Hf'. by apply elem_of_nil in Hf'.
    + intros f'. by eapply flagged_insert.
Qed.

Lemma instrument_rewrites_once is_cond_jump inspect fuel obj seen st :
  rewrites_once st (snd (instrument is_cond_jump inspect fuel obj seen st)).
Proof.
  apply (instrument_preserves is_cond_jump inspect rewrites_once
           rewrites_once_refl rewrites_once_trans).
  - apply instrument_function_rewrites_once.
  - apply rewrites_once_getmembers.
Qed.

(** ** The walk over the objects *)

Lemma instrument_function_visits_nothing is_cond_jump f st :
  ∃ events,
    trace (snd (instrument_function is_cond_jump f st)) = trace st ++ events
    ∧ visited events = []
    ∧ fst (instrument_function is_cond_jump f st) ≠ Raise OutOfFuel.
Proof.
  destruct (functions st !! f) as [fn|] eqn:Hf.
  2:{ rewrite instrument_function_dangling by done.
      exists []. by rewrite app_nil_r. }
  destruct (fn_dict fn !! _INSTRUMENTED_FLAG) as [v|] eqn:Hflag.
  { erewrite instrument_function_marked by done.
    exists []. by rewrite app_nil_r. }
  destruct (namespaces st !! fn_globals fn) as [globals|] eqn:Hns.
  - destruct (instrument_function_unmarked is_cond_jump f fn globals st Hf Hflag Hns)
      as (code & st_code & _ & (events & (Htr & _) & _ & Hreg) & Hrun).
    rewrite Hrun. cbn [fst snd].
    exists (set_attribute f _INSTRUMENTED_FLAG
            :: set_global (fn_globals fn) _TRACER_NAME :: events ++ [set_code f]).
    split_and!; [| | done].
    + cbn [code_replaced trace with_event with_functions].
      rewrite Htr, trace_marked_and_installed. by rewrite <- !app_assoc.
    + change (visited (?a :: ?b :: ?l)) with (visited l).
      by rewrite visited_app, visited_registrations.
  - rewrite (instrument_function_unmarked_dangling is_cond_jump f fn st) by done.
    by exists [set_attribute f _INSTRUMENTED_FLAG].
Qed.

Section Visits.

Variable is_cond_jump : Instr → bool.
Variable inspect : Inspect.
Variable universe : gset ref.
Hypothesis universe_closed : closed_under_members inspect universe.

Lemma size_unseen_insert (obj : ref) (seen : gset ref) :
  obj ∈ universe → obj ∉ seen →
  (size (universe ∖ ({[obj]} ∪ seen)) < size (universe ∖ seen))%nat.
Proof.
  intros Hin Hnot. apply subset_size. split; [set_solver |].
  intros Hsub. assert (obj ∈ universe ∖ seen) as H by set_solver.
  apply Hsub in H. set_solver.
Qed.

Lemma size_unseen_mono (seen seen' : gset ref) :
  seen ⊆ seen' → (size (universe ∖ seen') ≤ size (universe ∖ seen))%nat.
Proof. intros Hsub. apply subseteq_size. set_solver. Qed.

(** The loop over the members, given the property for the calls of
    [instrument] that it makes. *)
Lemma for_members_visits_once fuel :
  (∀ obj seen st,
     visits_once (obj ∈ universe ∧ (size (universe ∖ seen) < fuel)%nat) seen st
       (instrument is_cond_jump inspect fuel obj (Some seen) st)) →
  ∀ members seen st,
    seen ≠ ∅ →
    visits_once
      ((∀ name value, (name, value) ∈ members →
          isclass inspect value || ismethod inspect value = true →
          value ∈ universe)
       ∧ (size (universe ∖ seen) < fuel)%nat)
      seen st
      (for_members is_cond_jump inspect (instrument is_cond_jump inspect fuel)
         members seen st).
Proof.
  intros Hrec. induction members as [|[name value] members IH]; intros seen st Hne.
  { exists []. cbn. rewrite app_nil_r. split_and!; try done.
    - constructor.
    - intros obj Hobj. by apply elem_of_nil in Hobj.
    - intros seen' [= <-] _. set_solver. }
  cbn [for_members]. unfold bind at 1.
  (* the function, if the member is one *)
  assert (∃ events0,
            trace (snd ((if isfunction inspect value
                         then instrument_function is_cond_jump value
                         else ret tt) st)) = trace st ++ events0
            ∧ visited events0 = []
            ∧ fst ((if isfunction inspect value
                    then instrument_function is_cond_jump value
                    else ret tt) st) ≠ Raise OutOfFuel)
    as (events0 & Htr0 & Hvis0 & Hfuel0).
  { destruct (isfunction inspect value).
    - apply instrument_function_visits_nothing.
    - exists []. cbn. by rewrite app_nil_r. }
  destruct ((if isfunction inspect value
             then instrument_function is_cond_jump value else ret tt) st)
    as [[[]|e] st1]; cbn [fst snd] in *.
  2:{ exists events0. rewrite Hvis0. split_and!; try done.
      - constructor.
      - intros obj Hobj. by apply elem_of_nil in Hobj.
      - intros _ Heq. apply Hfuel0. by injection Heq as ->. }
  unfold bind at 1.
  destruct (isclass inspect value || ismethod inspect value) eqn:Hkind.
  - (* the recursive call *)
    destruct (Hrec value seen st1) as (events1 & Htr1 & Hnd1 & Hdis1 & Hret1 & Hfuel1).
    destruct (instrument is_cond_jump inspect fuel value (Some seen) st1)
      as [[seen1|e] st2]; cbn [fst snd] in *; cbv beta iota.
    + specialize (Hret1 seen1 eq_refl Hne).
      assert (seen1 ≠ ∅) as Hne1 by set_solver.
      destruct (IH seen1 st2 Hne1) as (events2 & Htr2 & Hnd2 & Hdis2 & Hret2 & Hfuel2).
      exists (events0 ++ events1 ++ events2).
      rewrite !visited_app, Hvis0. cbn [app]. split_and!.
      * by rewrite Htr2, Htr1, Htr0, <- !app_assoc.
      * apply NoDup_app. split_and!; [done | | done].
        intros obj Hobj1 Hobj2. apply Hdis2 in Hobj2.
        apply Hobj2. rewrite Hret1. apply elem_of_union_r.
        by apply elem_of_list_to_set.
      * intros obj [Hobj|Hobj]%elem_of_app; [by apply Hdis1 |].
        apply Hdis2 in Hobj. set_solver.
      * intros seen' Hseen' _. rewrite (Hret2 seen' Hseen' Hne1), Hret1.
        rewrite list_to_set_app_L. set_solver.
      * intros [Hmem Hsize]. apply Hfuel2. split.
        -- intros n v Hv. apply (Hmem n v). by apply list_elem_of_further.
        -- eapply Nat.le_lt_trans; [| exact Hsize].
           apply size_unseen_mono. set_solver.
    + exists (events0 ++ events1).
      rewrite !visited_app, Hvis0. cbn [app fst snd]. split_and!; try done.
      * by rewrite Htr1, Htr0, <- !app_assoc.
      * intros [Hmem Hsize]. apply Hfuel1. split; [| done].
        apply (Hmem name value); [apply list_elem_of_here | done].
  - (* no recursive call *)
    cbn [ret]. cbv beta iota. destruct (IH seen st1 Hne) as (events2 & Htr2 & Hnd2 & Hdis2 & Hret2 & Hfuel2).
    exists (events0 ++ events2).
    rewrite !visited_app, Hvis0. cbn [app]. split_and!; try done.
    + by rewrite Htr2, Htr0, <- !app_assoc.
    + intros [Hmem Hsize]. apply Hfuel2. split; [| done].
      intros n v Hv. apply (Hmem n v). by apply list_elem_of_further.
Qed.

(** One call of [instrument]: the set it works on is the one that was
    passed, or an empty one. *)
Lemma instrument_S fuel obj seen st :
  instrument is_cond_jump inspect (S fuel) obj seen st
  = let seen0 := default ∅ seen in
    if bool_decide (obj ∈ seen0) then (Ret seen0, st)
    else
      match for_members is_cond_jump inspect (instrument is_cond_jump inspect fuel)
              (getmembers inspect obj) ({[obj]} ∪ seen0)
              (with_event (getmembers_of obj) st) with
      | (Ret seen', st') => (Ret (if bool_decide (seen0 = ∅) then ∅ else seen'), st')
      | (Raise e, st') => (Raise e, st')
      end.
Proof.
  cbn [instrument].
  assert ((if match seen with
              | Some s => bool_decide (s = ∅)
              | None => true
              end then ∅ else default ∅ seen) = default ∅ seen) as ->.
  { destruct seen as [s|]; cbn; [| done]. by case_bool_decide. }
  assert (match seen with
          | Some s => bool_decide (s = ∅)
          | None => true
          end = bool_decide (default ∅ seen = ∅)) as ->.
  { destruct seen as [s|]; cbn; [done |]. by rewrite bool_decide_eq_true_2. }
  cbn zeta. destruct (bool_decide (obj ∈ default ∅ seen)); [done |].
  unfold bind, emit, modify, ret.
  by destruct (for_members _ _ _ _ _ _) as [[?|?] ?].
Qed.

(** [instrument] lists the members of no object twice, and of no object
    that was in the set; with more fuel than there are objects of the
    universe outside the set, it does not run out of fuel. *)
Lemma instrument_visits_once fuel : ∀ obj seen st,
  visits_once
    (obj ∈ universe ∧ (size (universe ∖ default ∅ seen) < fuel)%nat)
    (default ∅ seen) st
    (instrument is_cond_jump inspect fuel obj seen st).
Proof.
  induction fuel as [|fuel IH]; intros obj seen st.
  { exists []. cbn. rewrite app_nil_r. split_and!; try done.
    - constructor.
    - intros o Ho. by apply elem_of_nil in Ho.
    - intros [_ Hsize]. lia. }
  rewrite instrument_S. cbn zeta. set (seen0 := default ∅ seen).
  case_bool_decide as Hobj.
  { exists []. cbn. rewrite app_nil_r. split_and!; try done.
    - constructor.
    - intros o Ho. by apply elem_of_nil in Ho.
    - intros seen' [= <-] _. set_solver. }
  assert ({[obj]} ∪ seen0 ≠ ∅) as Hne by set_solver.
  destruct (for_members_visits_once fuel (λ o s, IH o (Some s))
              (getmembers inspect obj) ({[obj]} ∪ seen0)
              (with_event (getmembers_of obj) st) Hne)
    as (events & Htr & Hnd & Hdis & Hret & Hfuel).
  exists (getmembers_of obj :: events).
  change (visited (getmembers_of obj :: events)) with (obj :: visited events).
  destruct (for_members _ _ _ _ _ _) as [[seen'|e] st'] eqn:Hrun;
    cbn [fst snd] in *.
  - split_and!.
    + rewrite Htr. cbn. by rewrite <- app_assoc.
    + constructor; [| done]. intros Ho. apply Hdis in Ho. set_solver.
    + intros o [->|Ho]%elem_of_cons; [done |]. apply Hdis in Ho. set_solver.
    + intros s [= <-] Hne0. rewrite bool_decide_eq_false_2 by done.
      rewrite (Hret seen' eq_refl Hne). set_solver.
    + done.
  - split_and!.
    + rewrite Htr. cbn. by rewrite <- app_assoc.
    + constructor; [| done]. intros Ho. apply Hdis in Ho. set_solver.
    + intros o [->|Ho]%elem_of_cons; [done |]. apply Hdis in Ho. set_solver.
    + done.
    + intros [Hin Hsize]. apply Hfuel. split.
      * intros name value Hmem Hkind. by eapply universe_closed.
      * pose proof (size_unseen_insert obj seen0 Hin Hobj). lia.
Qed.

End Visits.


Lemma C4_witness :
  (functions FunctionExamples.st !! 2%nat = Some FunctionExamples.g
   ∧ instrument_function name_is_cond_jump 2%nat FunctionExamples.st
     = (Raise AssertionError, FunctionExamples.st))
  ∧ (functions FunctionExamples.st !! 1%nat = Some FunctionExamples.f
     ∧ namespaces FunctionExamples.st !! 100%nat = Some FunctionExamples.module_globals
     ∧ ∃ code st_code events,
         functions (marked_and_installed 1%nat FunctionExamples.f
                      FunctionExamples.module_globals FunctionExamples.st) !! 1%nat
         = Some (marked FunctionExamples.f)
         ∧ fn_dict (marked FunctionExamples.f) !! _INSTRUMENTED_FLAG = Some (PBool true)
         ∧ fn_code (marked FunctionExamples.f) = fn_code FunctionExamples.f
         ∧ _instrument_code_recursive name_is_cond_jump (fn_code FunctionExamples.f)
             (marked_and_installed 1%nat FunctionExamples.f
                FunctionExamples.module_globals FunctionExamples.st)
           = (Ret code, st_code)
         ∧ instrument_function name_is_cond_jump 1%nat FunctionExamples.st
           = (Ret tt, code_replaced 1%nat FunctionExamples.f code st_code)
         ∧ functions (code_replaced 1%nat FunctionExamples.f code st_code) !! 1%nat
           = Some (with_code code (marked FunctionExamples.f))
         ∧ trace (code_replaced 1%nat FunctionExamples.f code st_code)
           = trace FunctionExamples.st
               ++ set_attribute 1%nat _INSTRUMENTED_FLAG
               :: set_global 100%nat _TRACER_NAME
               :: events ++ [set_code 1%nat]
         ∧ Forall is_registration events).
Proof.
  split.
  - split; [reflexivity |].
    exact (C4_assertion_guards_instrumentation name_is_cond_jump 2%nat
             FunctionExamples.g FunctionExamples.st eq_refl).
  - split_and!; [reflexivity | reflexivity |].
    exact (C4_assertion_guards_instrumentation name_is_cond_jump 1%nat
             FunctionExamples.f FunctionExamples.st eq_refl
             FunctionExamples.module_globals eq_refl).
Defined.

Lemma C10_witness :
  functions FunctionExamples.st !! 1%nat = Some FunctionExamples.f
  ∧ fn_dict FunctionExamples.f !! _INSTRUMENTED_FLAG = None
  ∧ namespaces FunctionExamples.st !! 100%nat = Some FunctionExamples.module_globals
  ∧ ∃ st',
      instrument_function name_is_cond_jump 1%nat FunctionExamples.st = (Ret tt, st')
      ∧ namespaces st'
        = <[100%nat := <[_TRACER_NAME := POpaque 0]> FunctionExamples.module_globals]>
            (namespaces FunctionExamples.st)
      ∧ ∃ globals',
          namespaces st' !! 100%nat = Some globals'
          ∧ globals' !! _TRACER_NAME = Some (POpaque 0)
          ∧ (∀ key, key ≠ _TRACER_NAME →
               globals' !! key = FunctionExamples.module_globals !! key)
          ∧ (∀ g, g ≠ 100%nat →
               namespaces st' !! g = namespaces FunctionExamples.st !! g).
Proof.
  split_and!; [reflexivity | reflexivity | reflexivity |].
  exact (C10_tracer_bound_in_globals name_is_cond_jump 1%nat FunctionExamples.f
           FunctionExamples.module_globals FunctionExamples.st
           eq_refl eq_refl eq_refl).
Defined.

(** The claim C10 as it stands fails on a function that carries the flag:
    the call raises before the write, and the name [tracer] in the globals
    of the function stays bound to what it was bound to, not to the
    tracer. *)
Lemma C10_counterexample_marked_function :
  instrument_function name_is_cond_jump 2%nat FunctionExamples.st
  = (Raise AssertionError, FunctionExamples.st)
  ∧ _tracer FunctionExamples.st = POpaque 0
  ∧ namespaces FunctionExamples.st !! fn_globals FunctionExamples.g
    = Some FunctionExamples.module_globals
  ∧ FunctionExamples.module_globals !! _TRACER_NAME = Some (PStr "mine").
Proof. split_and!; reflexivity. Qed.

Lemma cyclic_closed : closed_under_members ObjectExamples.cyclic ObjectExamples.universe.
Proof.
  intros obj name value _ _ Hkind. cbn in Hkind.
  rewrite orb_false_r in Hkind. apply bool_decide_eq_true_1 in Hkind.
  unfold ObjectExamples.universe. set_solver.
Defined.

Lemma shared_closed : closed_under_members ObjectExamples.shared ObjectExamples.universe.
Proof.
  intros obj name value _ _ Hkind. cbn in Hkind.
  rewrite orb_false_r in Hkind. apply bool_decide_eq_true_1 in Hkind.
  unfold ObjectExamples.universe. set_solver.
Qed.


(** The cyclic objects are walked to the end: each of the module and the
    two classes once, and the function once. *)
Example cyclic_walk :
  fst (instrument name_is_cond_jump ObjectExamples.cyclic 5 0%nat None
         FunctionExamples.st) = Ret ∅
  ∧ visited (trace (snd (instrument name_is_cond_jump ObjectExamples.cyclic 5 0%nat
                           None FunctionExamples.st))) = [0; 2; 3]%nat
  ∧ rewritten (trace (snd (instrument name_is_cond_jump ObjectExamples.cyclic 5 0%nat
                             None FunctionExamples.st))) = [1%nat].
Proof. split_and!; vm_compute; reflexivity. Qed.


(** * Further properties of the walk over one code object *)

Section WalkOutput.

Variable is_cond_jump : Instr → bool.

Lemma weave_no_jump rest : ∀ pid x,
  count_cond_jumps is_cond_jump rest = 0%nat →
  weave is_cond_jump pid x rest = x :: rest.
Proof.
  induction rest as [|e rest IH]; intros pid x Hcount; [done |].
  rewrite count_cond_jumps_cons in Hcount. cbn [weave].
  destruct (is_cond_jump_elem is_cond_jump e); [done |].
  by rewrite IH.
Qed.

(** X1: the instructions of a code object that has instructions but no
    conditional jump come back with the function-entered probe in front
    of them and nothing else changed; one function is registered and no
    predicate. *)
Theorem X1_no_jump_gets_entry_probe_only l st :
  l ≠ [] →
  count_cond_jumps is_cond_jump l = 0%nat →
  instrument_instructions is_cond_jump l st
  = (Ret (function_entered_stmts (_function_id st) ++ l), register_function st).
Proof.
  intros Hne Hcount. rewrite instrument_instructions_eq.
  rewrite instrumented_nonempty by done.
  destruct l as [|e rest]; [done |]. rewrite Hcount.
  rewrite count_cond_jumps_cons in Hcount. cbn [weave].
  destruct (is_cond_jump_elem is_cond_jump e); [done |].
  by rewrite weave_no_jump.
Qed.

Lemma predicate_probes_length ids probes :
  Forall2 predicate_probe ids probes →
  ∃ n_bool n_cmp : nat,
    (n_bool + n_cmp)%nat = length probes
    ∧ length (concat probes) = (8 * n_bool + 9 * n_cmp)%nat.
Proof.
  induction 1 as [|pid p ids probes Hp _ (nb & nc & Hsum & Hlen)].
  - by exists 0%nat, 0%nat.
  - destruct Hp.
    + exists (S nb), nc. cbn [concat length]. rewrite length_app, Hlen.
      cbn [bool_predicate_stmts length]. lia.
    + exists nb, (S nc). cbn [concat length]. rewrite length_app, Hlen.
      cbn [cmp_predicate_stmts length]. lia.
Qed.

(** X2: the walk only inserts.  The original instructions are all in the
    output, in their order; the output is longer by the 5 instructions of
    the function-entered probe, unless there was no instruction, and by 8
    or 9 instructions for each of the [k] conditional jumps, 8 for a
    boolean probe and 9 for a comparison probe. *)
Theorem X2_walk_only_inserts l st :
  ∃ out st' (n_bool n_cmp : nat),
    instrument_instructions is_cond_jump l st = (Ret out, st')
    ∧ sublist l out
    ∧ (n_bool + n_cmp)%nat = count_cond_jumps is_cond_jump l
    ∧ length out
      = (length l + (match l with [] => 0 | _ => 5 end) + 8 * n_bool + 9 * n_cmp)%nat.
Proof.
  rewrite instrument_instructions_eq.
  destruct (decide (l = [])) as [->|Hne].
  { eexists _, _, 0%nat, 0%nat. split_and!; [reflexivity | | done | done].
    constructor. }
  destruct (instrumented_inserted is_cond_jump (_function_id st)
              (_predicate_id st) l Hne) as (probes & Hins & Hids).
  destruct (predicate_probes_length _ _ Hids) as (nb & nc & Hsum & Hlen).
  eexists _, _, nb, nc. split_and!; [reflexivity | | |].
  - by eapply Inserted_sublist.
  - rewrite Hsum. apply Forall2_length in Hids.
    by rewrite length_seqZ_of_nat in Hids.
  - rewrite (Inserted_length _ _ _ Hins). cbn [concat]. rewrite length_app, Hlen.
    destruct l; [done |]. cbn [function_entered_stmts length]. lia.
Qed.

End WalkOutput.

Lemma Inserted_count_cond_jumps is_cond_jump l probes out :
  Inserted l probes out →
  Forall (λ p, count_cond_jumps is_cond_jump p = 0%nat) probes →
  count_cond_jumps is_cond_jump out = count_cond_jumps is_cond_jump l.
Proof.
  induction 1 as [|e l probes out _ IH|p l probes out _ IH]; intros Hprobes.
  - done.
  - rewrite !count_cond_jumps_cons, IH by done. done.
  - apply Forall_cons in Hprobes as [Hp Hprobes].
    by rewrite count_cond_jumps_app, Hp, IH.
Qed.

Lemma predicate_probes_no_jump ids probes :
  Forall2 predicate_probe ids probes →
  Forall (λ p, count_cond_jumps name_is_cond_jump p = 0%nat) probes.
Proof.
  induction 1 as [|pid p ids probes Hp _ IH]; constructor; [| done].
  by destruct Hp.
Qed.

(** X3: with the classification of the [bytecode] library (an operation
    is a conditional jump if its name contains [JUMP_IF_]), no instruction
    of a probe is a conditional jump: the output of the walk has as many
    conditional jumps as its input. *)
Theorem X3_probes_add_no_conditional_jump l st :
  ∃ out st',
    instrument_instructions name_is_cond_jump l st = (Ret out, st')
    ∧ count_cond_jumps name_is_cond_jump out = count_cond_jumps name_is_cond_jump l.
Proof.
  rewrite instrument_instructions_eq. eexists _, _. split; [reflexivity |].
  destruct (decide (l = [])) as [->|Hne]; [done |].
  destruct (instrumented_inserted name_is_cond_jump (_function_id st)
              (_predicate_id st) l Hne) as (probes & Hins & Hids).
  apply (Inserted_count_cond_jumps _ _ _ _ Hins).
  constructor; [done |]. by eapply predicate_probes_no_jump.
Qed.

Lemma net_stack_effect_app l1 l2 :
  Stack.net_stack_effect (l1 ++ l2)
  = match Stack.net_stack_effect l1, Stack.net_stack_effect l2 with
    | Some d1, Some d2 => Some (d1 + d2)
    | _, _ => None
    end.
Proof.
  induction l1 as [|e l1 IH]; cbn [app Stack.net_stack_effect].
  - by destruct (Stack.net_stack_effect l2).
  - destruct e as [i| |]; [| done | done]. rewrite IH.
    destruct (Stack.stack_effect i), (Stack.net_stack_effect l1),
      (Stack.net_stack_effect l2); try done.
    f_equal. lia.
Qed.

Lemma Inserted_net_stack_effect l probes out :
  Inserted l probes out →
  Forall (λ p, Stack.net_stack_effect p = Some 0) probes →
  Stack.net_stack_effect out = Stack.net_stack_effect l.
Proof.
  induction 1 as [|e l probes out _ IH|p l probes out _ IH]; intros Hprobes.
  - done.
  - cbn [Stack.net_stack_effect]. by rewrite IH.
  - apply Forall_cons in Hprobes as [Hp Hprobes].
    rewrite net_stack_effect_app, Hp, IH by done.
    by destruct (Stack.net_stack_effect l).
Qed.

Lemma predicate_probes_neutral ids probes :
  Forall2 predicate_probe ids probes →
  Forall (λ p, Stack.net_stack_effect p = Some 0) probes.
Proof.
  induction 1 as [|pid p ids probes Hp _ IH]; constructor; [| done].
  by destruct Hp.
Qed.

(** X4: whatever instructions count as conditional jumps, the
    instrumented instructions have the net stack effect of the original
    ones: the sum of the stack effects over the output is the sum over the
    input, and it is undefined for the one exactly if it is for the
    other. *)
Theorem X4_walk_keeps_net_stack_effect is_cond_jump l st :
  ∃ out st',
    instrument_instructions is_cond_jump l st = (Ret out, st')
    ∧ Stack.net_stack_effect out = Stack.net_stack_effect l.
Proof.
  rewrite instrument_instructions_eq. eexists _, _. split; [reflexivity |].
  destruct (decide (l = [])) as [->|Hne]; [done |].
  destruct (instrumented_inserted is_cond_jump (_function_id st)
              (_predicate_id st) l Hne) as (probes & Hins & Hids).
  apply (Inserted_net_stack_effect _ _ _ Hins).
  constructor; [done |]. by eapply predicate_probes_neutral.
Qed.

(** * Further properties of the recursion over nested code objects *)

Section NestedCode.

Variable is_cond_jump : Instr → bool.

Lemma counted_trans u1 j1 u2 j2 st st1 st2 :
  counted u1 j1 st st1 → counted u2 j2 st1 st2 →
  counted (u1 + u2) (j1 + j2) st st2.
Proof.
  intros (Hr1 & Hf1 & Hp1) (Hr2 & Hf2 & Hp2). split_and!.
  - by eapply registers_only_trans.
  - rewrite Hf2, Hf1. lia.
  - rewrite Hp2, Hp1. lia.
Qed.

Lemma counted_refl st : counted 0 0 st st.
Proof.
  split_and!; [apply registers_only_refl | |]; cbn; lia.
Qed.

Lemma counted_instructions l st :
  counted (match l with [] => 0 | _ => 1 end) (count_cond_jumps is_cond_jump l)
    st (snd (instrument_instructions is_cond_jump l st)).
Proof.
  split; [apply instrument_instructions_registers_only |].
  rewrite instrument_instructions_eq. cbn [snd].
  destruct l as [|e rest]; [cbn; lia |].
  destruct (register_predicates_spec
              (count_cond_jumps is_cond_jump (e :: rest)) (register_function st))
    as (Hp & Hf & _).
  rewrite Hp, Hf. cbn. lia.
Qed.

Lemma for_consts_counted consts :
  Forall (λ k, match k with
               | CCode c => ∀ st, ∃ c' st',
                   _instrument_code_recursive is_cond_jump c st = (Ret c', st')
                   ∧ counted (count_units c) (count_jumps is_cond_jump c) st st'
               | CValue _ => True
               end) consts →
  ∀ st, ∃ new_consts st',
    for_consts (_instrument_code_recursive is_cond_jump) consts st
    = (Ret new_consts, st')
    ∧ Forall2 (const_instrumented is_cond_jump) consts new_consts
    ∧ counted (sum_consts count_units consts)
        (sum_consts (count_jumps is_cond_jump) consts) st st'.
Proof.
  induction 1 as [|k consts Hk _ IH]; intros st.
  - exists [], st. split_and!; [done | constructor | apply counted_refl].
  - destruct k as [c | v]; cbn [for_consts sum_consts].
    + destruct (Hk st) as (c' & st1 & Hc & Hcount1).
      destruct (IH st1) as (cs' & st2 & Hcs & Hshape & Hcount2).
      exists (CCode c' :: cs'), st2. unfold bind. rewrite Hc, Hcs.
      split_and!; [done | | by eapply counted_trans].
      constructor; [| done]. by exists st, st1.
    + destruct (IH st) as (cs' & st2 & Hcs & Hshape & Hcount2).
      exists (CValue v :: cs'), st2. unfold bind. rewrite Hcs.
      split_and!; [done | | done]. by constructor.
Qed.

Lemma _instrument_code_recursive_counted : ∀ code st,
  ∃ code' st',
    _instrument_code_recursive is_cond_jump code st = (Ret code', st')
    ∧ counted (count_units code) (count_jumps is_cond_jump code) st st'.
Proof.
  induction code as [consts instructions IH] using Code_nested_ind.
  intros st. rewrite _instrument_code_recursive_eq.
  destruct (for_consts_counted consts IH st) as (cs' & st1 & Hcs & _ & Hcount1).
  unfold bind. rewrite Hcs.
  pose proof (counted_instructions instructions st1) as Hcount2.
  destruct (instrument_instructions is_cond_jump instructions st1)
    as [[out|e] st2] eqn:Hrun.
  - eexists _, _. split; [reflexivity |].
    cbn [count_units count_jumps snd] in *. by eapply counted_trans.
  - by rewrite instrument_instructions_eq in Hrun.
Qed.

(** X6: on a code object with nested code objects, at any depth,
    [_instrument_code_recursive] returns and uses one function identifier
    for each code object that has instructions and one predicate
    identifier for each conditional jump, of the code object and of all
    nested ones; the identifiers registered with the tracer are the
    consecutive ones from the two counters on.  The nested code objects
    come first: the probes of the code object itself carry the
    identifiers that follow those of its constant pool. *)
Theorem X6_identifiers_of_nested_code consts instructions st :
  ∃ new_consts st' events,
    _instrument_code_recursive is_cond_jump (mkCode consts instructions) st
    = (Ret (mkCode new_consts
              (instrumented is_cond_jump
                 (_function_id st + Z.of_nat (sum_consts count_units consts))
                 (_predicate_id st
                  + Z.of_nat (sum_consts (count_jumps is_cond_jump) consts))
                 instructions)), st')
    ∧ trace st' = trace st ++ events
    ∧ function_ids events
      = seqZ (_function_id st)
          (Z.of_nat (count_units (mkCode consts instructions)))
    ∧ predicate_ids events
      = seqZ (_predicate_id st)
          (Z.of_nat (count_jumps is_cond_jump (mkCode consts instructions)))
    ∧ _function_id st'
      = _function_id st + Z.of_nat (count_units (mkCode consts instructions))
    ∧ _predicate_id st'
      = _predicate_id st
        + Z.of_nat (count_jumps is_cond_jump (mkCode consts instructions)).
Proof.
  destruct (for_consts_counted consts) with (st := st)
    as (new_consts & st_consts & Hconsts & _ & (_ & Hfc & Hpc)).
  { apply Forall_forall. intros [c|v] _; [| done].
    apply _instrument_code_recursive_counted. }
  destruct (_instrument_code_recursive_counted (mkCode consts instructions) st)
    as (code' & st' & Hrun & ((events & Hext & _ & _) & Hf & Hp)).
  destruct Hext as (Htr & Hpids & Hfids & Hp' & Hf').
  assert (length (function_ids events) = count_units (mkCode consts instructions))
    as Hlenf by lia.
  assert (length (predicate_ids events)
          = count_jumps is_cond_jump (mkCode consts instructions)) as Hlenp by lia.
  exists new_consts, st', events.
  rewrite Hlenf in Hfids. rewrite Hlenp in Hpids.
  split_and!; try done.
  rewrite Hrun. rewrite _instrument_code_recursive_eq in Hrun.
  unfold bind at 1 2 in Hrun. rewrite Hconsts, instrument_instructions_eq in Hrun.
  injection Hrun as <- _. by rewrite Hfc, Hpc.
Qed.

End NestedCode.

(** * Further properties of [instrument_function] *)

Section FunctionFrame.

Variable is_cond_jump : Instr → bool.

(** X7: a call of [instrument_function] that passes the assertion changes
    the function object it is given and no other: the object gets the
    flag and the new code, its other attributes and its reference to the
    globals stay.  The tracer of the instrumentation stays, and the
    counters advance by the number of code objects with instructions and
    of conditional jumps in the code of the function. *)
Theorem X7_instrument_function_changes_one_function f fn globals st :
  functions st !! f = Some fn →
  fn_dict fn !! _INSTRUMENTED_FLAG = None →
  namespaces st !! fn_globals fn = Some globals →
  ∃ code st',
    instrument_function is_cond_jump f st = (Ret tt, st')
    ∧ functions st'
      = <[f := {| fn_dict := <[_INSTRUMENTED_FLAG := PBool true]> (fn_dict fn);
                  fn_globals := fn_globals fn;
                  fn_code := code |}]> (functions st)
    ∧ (∀ f', f' ≠ f → functions st' !! f' = functions st !! f')
    ∧ (∀ attr, attr ≠ _INSTRUMENTED_FLAG →
         <[_INSTRUMENTED_FLAG := PBool true]> (fn_dict fn) !! attr = fn_dict fn !! attr)
    ∧ _tracer st' = _tracer st
    ∧ _function_id st' = _function_id st + Z.of_nat (count_units (fn_code fn))
    ∧ _predicate_id st'
      = _predicate_id st + Z.of_nat (count_jumps is_cond_jump (fn_code fn)).
Proof.
  intros Hf Hflag Hns.
  destruct (instrument_function_unmarked is_cond_jump f fn globals st Hf Hflag Hns)
    as (code & st_code & Hcode & _ & Hrun).
  destruct (_instrument_code_recursive_counted is_cond_jump (fn_code fn)
              (marked_and_installed f fn globals st))
    as (code' & st_code' & Hcode' & ((events & _ & (Htracer & Hfs & _) & _) & Hfid & Hpid)).
  rewrite Hcode in Hcode'. injection Hcode' as <- <-.
  assert (functions (code_replaced f fn code st_code)
          = <[f := with_code code (marked fn)]> (functions st)) as Heq.
  { cbn [code_replaced functions with_event with_functions]. rewrite Hfs.
    cbn [marked_and_installed functions with_event with_functions with_namespaces].
    by rewrite insert_insert_eq. }
  exists code, (code_replaced f fn code st_code). split_and!; try done.
  - intros f' Hf'. by rewrite Heq, lookup_insert_ne.
  - intros attr Hattr. by rewrite lookup_insert_ne.
Qed.

(** X8: after a call of [instrument_function] that returned, a second
    call on the same function raises the AssertionError and leaves the
    state as the first call left it. *)
Theorem X8_second_instrumentation_fails f fn globals st :
  functions st !! f = Some fn →
  fn_dict fn !! _INSTRUMENTED_FLAG = None →
  namespaces st !! fn_globals fn = Some globals →
  ∃ st1,
    instrument_function is_cond_jump f st = (Ret tt, st1)
    ∧ instrument_function is_cond_jump f st1 = (Raise AssertionError, st1).
Proof.
  intros Hf Hflag Hns.
  destruct (instrument_function_unmarked is_cond_jump f fn globals st Hf Hflag Hns)
    as (code & st_code & _ & _ & Hrun).
  eexists. split; [exact Hrun |].
  apply (instrument_function_marked is_cond_jump f
           (with_code code (marked fn)) (PBool true)).
  - cbn. by rewrite lookup_insert_eq.
  - cbn. by rewrite lookup_insert_eq.
Qed.

End FunctionFrame.

Lemma X1_witness :
  MoreExamples.return_none ≠ []
  ∧ count_cond_jumps name_is_cond_jump MoreExamples.return_none = 0%nat
  ∧ instrument_instructions name_is_cond_jump MoreExamples.return_none Examples.fresh
    = (Ret (function_entered_stmts 0 ++ MoreExamples.return_none),
       register_function Examples.fresh).
Proof.
  split_and!; [done | reflexivity |].
  apply (X1_no_jump_gets_entry_probe_only name_is_cond_jump
           MoreExamples.return_none Examples.fresh); [done | reflexivity].
Defined.

Lemma X7_witness :
  functions FunctionExamples.st !! 1%nat = Some FunctionExamples.f
  ∧ fn_dict FunctionExamples.f !! _INSTRUMENTED_FLAG = None
  ∧ namespaces FunctionExamples.st !! 100%nat = Some FunctionExamples.module_globals
  ∧ ∃ code st',
      instrument_function name_is_cond_jump 1%nat FunctionExamples.st = (Ret tt, st')
      ∧ functions st'
        = <[1%nat := {| fn_dict := <[_INSTRUMENTED_FLAG := PBool true]> ∅;
                        fn_globals := 100%nat;
                        fn_code := code |}]> (functions FunctionExamples.st)
      ∧ (∀ f', f' ≠ 1%nat →
           functions st' !! f' = functions FunctionExamples.st !! f')
      ∧ (∀ attr, attr ≠ _INSTRUMENTED_FLAG →
           <[_INSTRUMENTED_FLAG := PBool true]> (fn_dict FunctionExamples.f) !! attr
           = fn_dict FunctionExamples.f !! attr)
      ∧ _tracer st' = POpaque 0
      ∧ _function_id st' = 0 + Z.of_nat (count_units (fn_code FunctionExamples.f))
      ∧ _predicate_id st'
        = 0 + Z.of_nat (count_jumps name_is_cond_jump (fn_code FunctionExamples.f)).
Proof.
  split_and!; [reflexivity | reflexivity | reflexivity |].
  exact (X7_instrument_function_changes_one_function name_is_cond_jump 1%nat
           FunctionExamples.f FunctionExamples.module_globals FunctionExamples.st
           eq_refl eq_refl eq_refl).
Defined.

Lemma X8_witness :
  functions FunctionExamples.st !! 1%nat = Some FunctionExamples.f
  ∧ fn_dict FunctionExamples.f !! _INSTRUMENTED_FLAG = None
  ∧ namespaces FunctionExamples.st !! 100%nat = Some FunctionExamples.module_globals
  ∧ ∃ st1,
      instrument_function name_is_cond_jump 1%nat FunctionExamples.st = (Ret tt, st1)
      ∧ instrument_function name_is_cond_jump 1%nat st1 = (Raise AssertionError, st1).
Proof.
  split_and!; [reflexivity | reflexivity | reflexivity |].
  exact (X8_second_instrumentation_fails name_is_cond_jump 1%nat
           FunctionExamples.f FunctionExamples.module_globals FunctionExamples.st
           eq_refl eq_refl eq_refl).
Defined.

(** * Further properties of [instrument] *)

Lemma trace_extends_refl st : trace_extends st st.
Proof. exists []. by rewrite app_nil_r. Qed.

Lemma trace_extends_trans st1 st2 st3 :
  trace_extends st1 st2 → trace_extends st2 st3 → trace_extends st1 st3.
Proof.
  intros (ev1 & H1) (ev2 & H2). exists (ev1 ++ ev2).
  by rewrite H2, H1, <- app_assoc.
Qed.

Lemma instrument_function_trace_extends is_cond_jump f st :
  trace_extends st (snd (instrument_function is_cond_jump f st)).
Proof.
  destruct (instrument_function_visits_nothing is_cond_jump f st) as (ev & H & _).
  by exists ev.
Qed.

Lemma for_members_trace_extends is_cond_jump inspect fuel members seen st :
  trace_extends st
    (snd (for_members is_cond_jump inspect (instrument is_cond_jump inspect fuel)
            members seen st)).
Proof.
  apply (for_members_preserves is_cond_jump inspect trace_extends
           trace_extends_refl trace_extends_trans).
  - apply instrument_function_trace_extends.
  - intros o s st1.
    apply (instrument_preserves is_cond_jump inspect trace_extends
             trace_extends_refl trace_extends_trans).
    + apply instrument_function_trace_extends.
    + intros o' st'. by exists [getmembers_of o'].
Qed.

(** X9: an empty set passed as [seen] counts as no set: the call does
    what it does without the argument, and the set that was passed is
    still empty when the call returns, although the members of [obj] were
    listed. *)
Theorem X9_empty_seen_is_replaced is_cond_jump inspect fuel obj st :
  instrument is_cond_jump inspect fuel obj (Some ∅) st
  = instrument is_cond_jump inspect fuel obj None st
  ∧ (∀ seen', fst (instrument is_cond_jump inspect fuel obj (Some ∅) st) = Ret seen' →
       seen' = ∅)
  ∧ (fuel ≠ 0%nat →
     ∃ events,
       trace (snd (instrument is_cond_jump inspect fuel obj (Some ∅) st))
       = trace st ++ getmembers_of obj :: events).
Proof.
  destruct fuel as [|fuel]; [by split_and! |].
  rewrite !instrument_S. cbn [default]. cbn zeta.
  rewrite bool_decide_eq_false_2 by set_solver.
  rewrite bool_decide_eq_true_2 by done.
  destruct (for_members_trace_extends is_cond_jump inspect fuel
              (getmembers inspect obj) ({[obj]} ∪ ∅)
              (with_event (getmembers_of obj) st)) as (ev & Hev).
  destruct (for_members _ _ _ _ _ _) as [[seen1|e] st1]; cbn [fst snd] in *.
  - split_and!; [done | by intros ? [= <-] |].
    intros _. exists ev. rewrite Hev. cbn. by rewrite <- app_assoc.
  - split_and!; [done | done |].
    intros _. exists ev. rewrite Hev. cbn. by rewrite <- app_assoc.
Qed.

Lemma instrument_function_returned is_cond_jump f st st1 :
  instrument_function is_cond_jump f st = (Ret tt, st1) →
  ∃ events,
    trace st1 = trace st ++ events
    ∧ visited events = []
    ∧ rewritten events = [f].
Proof.
  intros Hrun.
  destruct (functions st !! f) as [fn|] eqn:Hf.
  2:{ by rewrite instrument_function_dangling in Hrun. }
  destruct (fn_dict fn !! _INSTRUMENTED_FLAG) as [v|] eqn:Hflag.
  { by erewrite instrument_function_marked in Hrun. }
  destruct (namespaces st !! fn_globals fn) as [globals|] eqn:Hns.
  2:{ by rewrite (instrument_function_unmarked_dangling is_cond_jump f fn st)
        in Hrun. }
  destruct (instrument_function_unmarked is_cond_jump f fn globals st Hf Hflag Hns)
    as (code & st_code & _ & (events & (Htr & _) & _ & Hreg) & Hrun').
  rewrite Hrun' in Hrun. injection Hrun as <-.
  exists (set_attribute f _INSTRUMENTED_FLAG
          :: set_global (fn_globals fn) _TRACER_NAME :: events ++ [set_code f]).
  split_and!.
  - cbn [code_replaced trace with_event with_functions].
    rewrite Htr, trace_marked_and_installed. by rewrite <- !app_assoc.
  - change (visited (?a :: ?b :: ?l)) with (visited l).
    by rewrite visited_app, visited_registrations.
  - change (rewritten (?a :: ?b :: ?l)) with (rewritten l).
    by rewrite rewritten_app, rewritten_registrations.
Qed.

Section Returned.

Variable is_cond_jump : Instr → bool.
Variable inspect : Inspect.

(** The loop over the members, when it returns. *)
Lemma for_members_returned fuel :
  (∀ obj seen st seen' st',
     instrument is_cond_jump inspect fuel obj seen st = (Ret seen', st') →
     walk_returned inspect obj seen st seen' st') →
  ∀ members seen st seen' st',
    seen ≠ ∅ →
    for_members is_cond_jump inspect (instrument is_cond_jump inspect fuel)
      members seen st = (Ret seen', st') →
    ∃ events,
      trace st' = trace st ++ events
      ∧ seen' = seen ∪ list_to_set (visited events)
      ∧ rewritten events
        ≡ₚ filter (λ value, isfunction inspect value = true) (snd <$> members)
           ++ concat (function_members inspect <$> visited events)
      ∧ (∀ value,
           value ∈ filter (λ value, isclass inspect value || ismethod inspect value = true)
                     (snd <$> members) →
           value ∈ seen')
      ∧ (∀ o, o ∈ visited events →
           ∀ value, value ∈ descended_members inspect o → value ∈ seen').
Proof.
  intros Hrec. induction members as [|[name value] members IH];
    intros seen st seen' st' Hne Hrun.
  { injection Hrun as <- <-. exists []. rewrite app_nil_r. cbn.
    split_and!; [done | set_solver | done | |].
    - intros v Hv. by apply elem_of_nil in Hv.
    - intros o Ho. by apply elem_of_nil in Ho. }
  cbn [for_members] in Hrun. unfold bind at 1 in Hrun.
  (* the function, if the member is one *)
  assert (∃ st1 events0,
            (if isfunction inspect value
             then instrument_function is_cond_jump value else ret tt) st
            = (Ret tt, st1)
            ∧ trace st1 = trace st ++ events0
            ∧ visited events0 = []
            ∧ rewritten events0
              = filter (λ value, isfunction inspect value = true) [value])
    as (st1 & events0 & Hrun0 & Htr0 & Hvis0 & Hrw0).
  { rewrite filter_cons, filter_nil.
    destruct (isfunction inspect value) eqn:Hfun.
    - destruct (instrument_function is_cond_jump value st) as [[[]|e] st1] eqn:Hf;
        [| done].
      destruct (instrument_function_returned _ _ _ _ Hf) as (ev & ? & ? & ?).
      exists st1, ev. by rewrite decide_True.
    - exists st, []. rewrite app_nil_r. by rewrite decide_False. }
  rewrite Hrun0 in Hrun. unfold bind at 1 in Hrun.
  (* the recursive call, if the member is a class or a method *)
  assert (∃ seen1 st2 events1,
            (if isclass inspect value || ismethod inspect value
             then instrument is_cond_jump inspect fuel value (Some seen)
             else ret seen) st1 = (Ret seen1, st2)
            ∧ trace st2 = trace st1 ++ events1
            ∧ seen1 = seen ∪ list_to_set (visited events1)
            ∧ (∀ v, v ∈ filter (λ value, isclass inspect value
                                         || ismethod inspect value = true) [value] →
                 v ∈ seen1)
            ∧ rewritten events1
              ≡ₚ concat (function_members inspect <$> visited events1)
            ∧ (∀ o, o ∈ visited events1 →
                 ∀ v, v ∈ descended_members inspect o → v ∈ seen1))
    as (seen1 & st2 & events1 & Hrun1 & Htr1 & Hseen1 & Hval1 & Hrw1 & Hclo1).
  { rewrite filter_cons, filter_nil.
    destruct (isclass inspect value || ismethod inspect value) eqn:Hkind.
    - destruct (instrument is_cond_jump inspect fuel value (Some seen) st1)
        as [[seen1|e] st2] eqn:Hi; [| done].
      destruct (Hrec _ _ _ _ _ Hi) as (ev & Htr & Hret & Hin & Hrw & Hclo).
      cbn [default] in *. specialize (Hret Hne). subst seen1.
      exists (seen ∪ list_to_set (visited ev)), st2, ev.
      split_and!; try done.
      rewrite decide_True by done. by intros v ->%list_elem_of_singleton.
    - exists seen, st1, []. rewrite app_nil_r, decide_False by done. cbn.
      split_and!; try done.
      + set_solver.
      + intros v Hv. by apply elem_of_nil in Hv.
      + intros o Ho. by apply elem_of_nil in Ho. }
  rewrite Hrun1 in Hrun.
  assert (seen1 ≠ ∅) as Hne1 by set_solver.
  destruct (IH seen1 st2 seen' st' Hne1 Hrun)
    as (events2 & Htr2 & Hseen2 & Hrw2 & Hval2 & Hclo2).
  exists (events0 ++ events1 ++ events2).
  rewrite !visited_app, !rewritten_app, Hvis0. cbn [app].
  assert (seen1 ⊆ seen') as Hsub by set_solver.
  split_and!.
  - by rewrite Htr2, Htr1, Htr0, <- !app_assoc.
  - rewrite Hseen2, Hseen1, list_to_set_app_L. set_solver.
  - rewrite Hrw0, Hrw1, Hrw2, fmap_app, concat_app.
    change (snd <$> (name, value) :: members) with (value :: (snd <$> members)).
    change (value :: (snd <$> members)) with ([value] ++ (snd <$> members)).
    rewrite filter_app. solve_Permutation.
  - change (snd <$> (name, value) :: members) with ([value] ++ (snd <$> members)).
    intros v. rewrite filter_app. intros [Hv|Hv]%elem_of_app.
    + by apply Hsub, Hval1.
    + by apply Hval2.
  - intros o [Ho|Ho]%elem_of_app v Hv.
    + by eapply Hsub, Hclo1.
    + by eapply Hclo2.
Qed.

(** A call of [instrument], when it returns. *)
Lemma instrument_returned fuel : ∀ obj seen st seen' st',
  instrument is_cond_jump inspect fuel obj seen st = (Ret seen', st') →
  walk_returned inspect obj seen st seen' st'.
Proof.
  induction fuel as [|fuel IH]; intros obj seen st seen' st' Hrun; [done |].
  rewrite instrument_S in Hrun. cbn zeta in Hrun.
  set (seen0 := default ∅ seen) in *. unfold walk_returned. fold seen0.
  case_bool_decide as Hobj.
  { injection Hrun as <- <-. exists []. rewrite app_nil_r. cbn.
    split_and!; [done | set_solver | set_solver | done |].
    intros o Ho. by apply elem_of_nil in Ho. }
  destruct (for_members _ _ _ _ _ _) as [[seen1|e] st1] eqn:Hloop; [| done].
  injection Hrun as <- <-.
  assert ({[obj]} ∪ seen0 ≠ ∅) as Hne by set_solver.
  destruct (for_members_returned fuel IH _ _ _ _ _ Hne Hloop)
    as (events & Htr & Hseen & Hrw & Hval & Hclo).
  exists (getmembers_of obj :: events).
  change (visited (getmembers_of obj :: events)) with (obj :: visited events).
  change (rewritten (getmembers_of obj :: events)) with (rewritten events).
  assert (seen1 = seen0 ∪ list_to_set (obj :: visited events)) as Hseen1
    by (rewrite Hseen; set_solver).
  split_and!.
  - rewrite Htr. cbn. by rewrite <- app_assoc.
  - intros Hne0. by rewrite bool_decide_eq_false_2.
  - set_solver.
  - by rewrite Hrw.
  - rewrite <- Hseen1. intros o [->|Ho]%elem_of_cons v Hv.
    + by apply Hval.
    + by eapply Hclo.
Qed.

End Returned.

Lemma reachable_trans inspect a b c :
  reachable inspect a b → reachable inspect b c → reachable inspect a c.
Proof.
  intros Hab Hbc. induction Hbc as [|o v _ IH Hv]; [done |].
  by eapply reachable_member.
Qed.

Section VisitsReachable.

Variable is_cond_jump : Instr → bool.
Variable inspect : Inspect.

(** The loop over the members visits only objects that are reached from
    a class or a method among the members. *)
Lemma for_members_visits_reachable fuel :
  (∀ obj seen st,
     ∃ events,
       trace (snd (instrument is_cond_jump inspect fuel obj seen st))
       = trace st ++ events
       ∧ ∀ o, o ∈ visited events → reachable inspect obj o) →
  ∀ members seen st,
    ∃ events,
      trace (snd (for_members is_cond_jump inspect
                    (instrument is_cond_jump inspect fuel) members seen st))
      = trace st ++ events
      ∧ ∀ o, o ∈ visited events →
          ∃ value,
            value ∈ filter (λ value, isclass inspect value
                                     || ismethod inspect value = true)
                      (snd <$> members)
            ∧ reachable inspect value o.
Proof.
  intros Hrec. induction members as [|[name value] members IH]; intros seen st.
  { exists []. cbn. rewrite app_nil_r. split; [done |].
    intros o Ho. by apply elem_of_nil in Ho. }
  cbn [for_members]. unfold bind at 1.
  destruct (instrument_function_visits_nothing is_cond_jump value st)
    as (ev & Htr & Hvis & _).
  assert (∃ events0,
            trace (snd ((if isfunction inspect value
                         then instrument_function is_cond_jump value
                         else ret tt) st)) = trace st ++ events0
            ∧ visited events0 = []) as (events0 & Htr0 & Hvis0).
  { destruct (isfunction inspect value); [by exists ev |].
    exists []. cbn. by rewrite app_nil_r. }
  clear ev Htr Hvis.
  destruct ((if isfunction inspect value
             then instrument_function is_cond_jump value else ret tt) st)
    as [[[]|e] st1]; cbn [fst snd] in *.
  2:{ exists events0. rewrite Hvis0. split; [done |].
      intros o Ho. by apply elem_of_nil in Ho. }
  unfold bind at 1.
  change (snd <$> (name, value) :: members) with ([value] ++ (snd <$> members)).
  rewrite filter_app, filter_cons, filter_nil.
  destruct (isclass inspect value || ismethod inspect value) eqn:Hkind.
  - rewrite decide_True by done.
    destruct (Hrec value (Some seen) st1) as (events1 & Htr1 & Hreach1).
    destruct (instrument is_cond_jump inspect fuel value (Some seen) st1)
      as [[seen1|e] st2]; cbn [fst snd] in *; cbv beta iota.
    + destruct (IH seen1 st2) as (events2 & Htr2 & Hreach2).
      exists (events0 ++ events1 ++ events2).
      rewrite !visited_app, Hvis0. cbn [app]. split.
      * by rewrite Htr2, Htr1, Htr0, <- !app_assoc.
      * intros o [Ho|Ho]%elem_of_app.
        -- exists value. split; [apply list_elem_of_here | by apply Hreach1].
        -- destruct (Hreach2 o Ho) as (v & Hv & Hvo).
           exists v. split; [by apply list_elem_of_further | done].
    + exists (events0 ++ events1).
      rewrite !visited_app, Hvis0. cbn [app fst snd]. split.
      * by rewrite Htr1, Htr0, <- !app_assoc.
      * intros o Ho. exists value.
        split; [apply list_elem_of_here | by apply Hreach1].
  - rewrite decide_False by done. cbn [ret app]. cbv beta iota.
    destruct (IH seen st1) as (events2 & Htr2 & Hreach2).
    exists (events0 ++ events2).
    rewrite !visited_app, Hvis0. cbn [app]. split; [| done].
    by rewrite Htr2, Htr0, <- !app_assoc.
Qed.

(** [instrument] visits only objects that are reached from [obj]. *)
Lemma instrument_visits_reachable fuel : ∀ obj seen st,
  ∃ events,
    trace (snd (instrument is_cond_jump inspect fuel obj seen st))
    = trace st ++ events
    ∧ ∀ o, o ∈ visited events → reachable inspect obj o.
Proof.
  induction fuel as [|fuel IH]; intros obj seen st.
  { exists []. cbn. rewrite app_nil_r. split; [done |].
    intros o Ho. by apply elem_of_nil in Ho. }
  rewrite instrument_S. cbn zeta. case_bool_decide as Hobj.
  { exists []. cbn. rewrite app_nil_r. split; [done |].
    intros o Ho. by apply elem_of_nil in Ho. }
  destruct (for_members_visits_reachable fuel IH (getmembers inspect obj)
              ({[obj]} ∪ default ∅ seen) (with_event (getmembers_of obj) st))
    as (events & Htr & Hreach).
  exists (getmembers_of obj :: events).
  change (visited (getmembers_of obj :: events)) with (obj :: visited events).
  split.
  - destruct (for_members _ _ _ _ _ _) as [[?|?] ?]; cbn [snd] in *;
      rewrite Htr; cbn; by rewrite <- app_assoc.
  - intros o [->|Ho]%elem_of_cons; [constructor |].
    destruct (Hreach o Ho) as (v & Hv & Hvo).
    eapply reachable_trans; [| exact Hvo].
    eapply reachable_member; [constructor | exact Hv].
Qed.

End VisitsReachable.

(** X10: when the call [instrument(root)] returns, the functions whose
    code it replaced are the function members of the objects it visited,
    each one as often as it is a member.  As no function has its code
    replaced twice, no function was a member twice, under two names or of
    two objects: with such a function the call does not return.  Every one
    of these functions had no flag before the call and has it after. *)
Theorem X10_returned_walk_instrumented_each_function_member
    is_cond_jump inspect fuel root st seen' :
  fst (instrument is_cond_jump inspect fuel root None st) = Ret seen' →
  ∃ events,
    trace (snd (instrument is_cond_jump inspect fuel root None st))
    = trace st ++ events
    ∧ rewritten events ≡ₚ concat (function_members inspect <$> visited events)
    ∧ NoDup (concat (function_members inspect <$> visited events))
    ∧ ∀ f, f ∈ concat (function_members inspect <$> visited events) →
        ¬ flagged st f
        ∧ flagged (snd (instrument is_cond_jump inspect fuel root None st)) f.
Proof.
  intros Hret.
  destruct (instrument is_cond_jump inspect fuel root None st) as [o st'] eqn:Hrun.
  cbn [fst snd] in *. subst o.
  destruct (instrument_returned is_cond_jump inspect fuel _ _ _ _ _ Hrun)
    as (events & Htr & _ & _ & Hrw & _).
  pose proof (instrument_rewrites_once is_cond_jump inspect fuel root None st)
    as (events' & Htr' & Hnd & Hflags & _).
  rewrite Hrun in Htr', Hflags. cbn [snd] in Htr', Hflags.
  rewrite Htr in Htr'. apply app_inv_head in Htr'. subst events'.
  exists events. split_and!; [done | done | by rewrite <- Hrw |].
  intros f Hf. apply Hflags. by rewrite Hrw.
Qed.

(** X11: when the call [instrument(root)] returns, the objects whose
    members it listed are the objects that are reached from [root] through
    members that are classes or methods, [root] among them. *)
Theorem X11_returned_walk_visited_what_is_reachable
    is_cond_jump inspect fuel root st seen' :
  fst (instrument is_cond_jump inspect fuel root None st) = Ret seen' →
  ∃ events,
    trace (snd (instrument is_cond_jump inspect fuel root None st))
    = trace st ++ events
    ∧ ∀ obj, obj ∈ visited events ↔ reachable inspect root obj.
Proof.
  intros Hret.
  destruct (instrument_visits_reachable is_cond_jump inspect fuel root None st)
    as (events' & Htr' & Hsound).
  destruct (instrument is_cond_jump inspect fuel root None st) as [o st'] eqn:Hrun.
  cbn [fst snd] in *. subst o.
  destruct (instrument_returned is_cond_jump inspect fuel _ _ _ _ _ Hrun)
    as (events & Htr & _ & Hroot & _ & Hclosed).
  rewrite Htr in Htr'. apply app_inv_head in Htr'. subst events'.
  exists events. split; [done |]. intros obj. split; [apply Hsound |].
  cbn [default] in *.
  induction 1 as [|o v _ IH Hv].
  - set_solver.
  - specialize (Hclosed o IH v Hv). set_solver.
Qed.

Lemma X10_witness :
  fst (instrument name_is_cond_jump ObjectExamples.cyclic 5 0%nat None
         FunctionExamples.st) = Ret ∅
  ∧ ∃ events,
      trace (snd (instrument name_is_cond_jump ObjectExamples.cyclic 5 0%nat None
                    FunctionExamples.st))
      = trace FunctionExamples.st ++ events
      ∧ rewritten events
        ≡ₚ concat (function_members ObjectExamples.cyclic <$> visited events)
      ∧ NoDup (concat (function_members ObjectExamples.cyclic <$> visited events))
      ∧ ∀ f, f ∈ concat (function_members ObjectExamples.cyclic <$> visited events) →
          ¬ flagged FunctionExamples.st f
          ∧ flagged (snd (instrument name_is_cond_jump ObjectExamples.cyclic 5 0%nat
                            None FunctionExamples.st)) f.
Proof.
  assert (fst (instrument name_is_cond_jump ObjectExamples.cyclic 5 0%nat None
                 FunctionExamples.st) = Ret ∅) as Hret
    by (vm_compute; reflexivity).
  split; [exact Hret |].
  exact (X10_returned_walk_instrumented_each_function_member name_is_cond_jump
           ObjectExamples.cyclic 5 0%nat FunctionExamples.st ∅ Hret).
Defined.

Lemma X11_witness :
  fst (instrument name_is_cond_jump ObjectExamples.cyclic 5 0%nat None
         FunctionExamples.st) = Ret ∅
  ∧ ∃ events,
      trace (snd (instrument name_is_cond_jump ObjectExamples.cyclic 5 0%nat None
                    FunctionExamples.st))
      = trace FunctionExamples.st ++ events
      ∧ ∀ obj, obj ∈ visited events ↔ reachable ObjectExamples.cyclic 0%nat obj.
Proof.
  assert (fst (instrument name_is_cond_jump ObjectExamples.cyclic 5 0%nat None
                 FunctionExamples.st) = Ret ∅) as Hret
    by (vm_compute; reflexivity).
  split; [exact Hret |].
  exact (X11_returned_walk_visited_what_is_reachable name_is_cond_jump
           ObjectExamples.cyclic 5 0%nat FunctionExamples.st ∅ Hret).
Defined.

(** * The instrumented instructions on the evaluation stack *)

Lemma exec_app l1 l2 vm :
  Stack.exec (l1 ++ l2) vm
  = match Stack.exec l1 vm with
    | Some vm1 => Stack.exec l2 vm1
    | None => None
    end.
Proof.
  revert vm. induction l1 as [|e l1 IH]; intros vm; [done |].
  cbn [app Stack.exec]. destruct e as [i| |]; [| done | done].
  by destruct (Stack.exec_instr i vm).
Qed.

(** The names of the operations that [Stack.exec_instr] knows. *)
Ltac name_cases n :=
  repeat match goal with
         | H : context [String.eqb n ?s] |- _ =>
             destruct (String.eqb_spec n s) as [->|?]
         | |- context [String.eqb n ?s] =>
             destruct (String.eqb_spec n s) as [->|?]
         end.

(** What [Stack.exec_instr] does depends on the depth of the stack only,
    not on the values: on two stacks of one depth it fails on both or
    leaves two stacks of one depth, with as many calls made. *)
Lemma exec_instr_depth i vm1 vm1' vm2 :
  Stack.exec_instr i vm1 = Some vm1' →
  length (Stack.stack vm1) = length (Stack.stack vm2) →
  ∃ vm2',
    Stack.exec_instr i vm2 = Some vm2'
    ∧ length (Stack.stack vm1') = length (Stack.stack vm2')
    ∧ (length (Stack.calls vm2') + length (Stack.calls vm1)
       = length (Stack.calls vm1') + length (Stack.calls vm2))%nat.
Proof.
  destruct i as [n a], vm1 as [s1 c1], vm2 as [s2 c2].
  unfold Stack.exec_instr. cbn [name arg Stack.stack Stack.calls].
  intros Hexec Hlen.
  repeat match type of Hexec with
         | (if ?b then _ else _) = _ => destruct b eqn:?
         end.
  all: try discriminate Hexec.
  all: try (destruct s1 as [|? [|? [|? [|? ?]]]], s2 as [|? [|? [|? [|? ?]]]];
            try discriminate Hlen; try discriminate Hexec;
            injection Hexec as <-; eexists; (split; [reflexivity |]);
            cbn in *; split; lia).
  (* CALL_METHOD *)
  destruct a as [| |?|argc|?|?|?|?]; try discriminate Hexec.
  destruct (0 <=? argc); [| discriminate Hexec].
  destruct (drop (Z.to_nat argc) s1) as [|self1 [|method1 s1']] eqn:Hdrop1;
    try discriminate Hexec.
  injection Hexec as <-.
  assert (length (drop (Z.to_nat argc) s2) = S (S (length s1'))) as Hdrop2.
  { rewrite length_drop, <- Hlen, <- length_drop, Hdrop1. done. }
  destruct (drop (Z.to_nat argc) s2) as [|self2 [|method2 s2']];
    try discriminate Hdrop2.
  eexists. split; [reflexivity |]. cbn in *. rewrite !length_app. cbn. split; lia.
Qed.

Lemma exec_elem_depth e vm1 vm1' vm2 :
  Stack.exec [e] vm1 = Some vm1' →
  length (Stack.stack vm1) = length (Stack.stack vm2) →
  ∃ vm2',
    Stack.exec [e] vm2 = Some vm2'
    ∧ length (Stack.stack vm1') = length (Stack.stack vm2')
    ∧ (length (Stack.calls vm2') + length (Stack.calls vm1)
       = length (Stack.calls vm1') + length (Stack.calls vm2))%nat.
Proof.
  intros Hexec Hlen. destruct e as [i| |]; cbn [Stack.exec] in *.
  - destruct (Stack.exec_instr i vm1) as [vm|] eqn:Hi; [| done].
    injection Hexec as <-.
    destruct (exec_instr_depth i vm1 vm vm2 Hi Hlen) as (vm2' & -> & ? & ?).
    by exists vm2'.
  - injection Hexec as <-. exists vm2. split_and!; [done | done | lia].
  - injection Hexec as <-. exists vm2. split_and!; [done | done | lia].
Qed.

(** A conditional jump that the stack machine runs pops its operand. *)
Lemma cond_jump_needs_operand i vm vm' :
  name_is_cond_jump i = true →
  Stack.exec_instr i vm = Some vm' →
  Stack.stack vm ≠ [].
Proof.
  destruct i as [n a], vm as [s c].
  unfold Stack.exec_instr. cbn [name arg Stack.stack Stack.calls].
  intros Hjump Hexec Hs. subst s.
  name_cases n; try discriminate Hjump; try discriminate Hexec.
Qed.

(** A comparison that the stack machine runs pops two operands. *)
Lemma compare_op_needs_operands x vm vm' :
  is_compare_op x = true →
  Stack.exec [x] vm = Some vm' →
  (2 ≤ length (Stack.stack vm))%nat.
Proof.
  destruct x as [[n a]| |]; [| done | done]. cbn [is_compare_op name].
  intros ->%String.eqb_eq. destruct vm as [s c].
  cbn. destruct s as [|? [|? ?]]; [done | done |]. cbn. lia.
Qed.

(** Where the original instructions run, the instrumented ones run, to
    the same depth of the stack and with one more call for each probe. *)
Lemma exec_weave rest : ∀ pid x vm vm' vm2,
  Stack.exec (x :: rest) vm = Some vm' →
  length (Stack.stack vm) = length (Stack.stack vm2) →
  ∃ vm2',
    Stack.exec (weave name_is_cond_jump pid x rest) vm2 = Some vm2'
    ∧ length (Stack.stack vm') = length (Stack.stack vm2')
    ∧ (length (Stack.calls vm2') + length (Stack.calls vm)
       = length (Stack.calls vm') + length (Stack.calls vm2)
         + count_cond_jumps name_is_cond_jump rest)%nat.
Proof.
  induction rest as [|e rest IH]; intros pid x vm vm' vm2 Hexec Hlen.
  { cbn [weave]. destruct (exec_elem_depth x vm vm' vm2 Hexec Hlen)
      as (vm2' & ? & ? & ?).
    exists vm2'. split_and!; [done | done |]. cbn. lia. }
  change (x :: e :: rest) with ([x] ++ e :: rest) in Hexec.
  rewrite exec_app in Hexec.
  destruct (Stack.exec [x] vm) as [vm1|] eqn:Hx; [| done].
  cbn [weave]. rewrite count_cond_jumps_cons.
  destruct (is_cond_jump_elem name_is_cond_jump e) eqn:Hjump.
  - destruct (is_compare_op x) eqn:Hcmp.
    + (* the comparison probe in front of the comparison *)
      pose proof (compare_op_needs_operands x vm vm1 Hcmp Hx) as Hdepth.
      destruct vm2 as [s2 c2]. cbn [Stack.stack] in Hlen.
      destruct s2 as [|rhs [|lhs s2]]; cbn in Hlen; try lia.
      rewrite exec_app, (exec_cmp_predicate_stmts pid _ rhs lhs s2 c2).
      change (x :: weave name_is_cond_jump (pid + 1) e rest)
        with ([x] ++ weave name_is_cond_jump (pid + 1) e rest).
      rewrite exec_app.
      match goal with
      | |- context [Stack.exec [x] ?v] =>
          destruct (exec_elem_depth x vm vm1 v Hx Hlen)
            as (vm2x & -> & Hlenx & Hcallsx)
      end.
      destruct (IH (pid + 1) e vm1 vm' vm2x Hexec Hlenx) as (vm2' & ? & ? & Hcalls).
      exists vm2'. split_and!; [done | done |].
      cbn [Stack.calls] in *. rewrite length_app in Hcallsx. cbn in Hcallsx. lia.
    + (* the boolean probe in front of the jump *)
      destruct (exec_elem_depth x vm vm1 vm2 Hx Hlen) as (vm2x & Hx2 & Hlenx & Hcallsx).
      change (x :: bool_predicate_stmts pid ++ weave name_is_cond_jump (pid + 1) e rest)
        with ([x] ++ bool_predicate_stmts pid
                       ++ weave name_is_cond_jump (pid + 1) e rest).
      rewrite exec_app, Hx2.
      destruct e as [j| |]; [| done | done]. cbn [is_cond_jump_elem] in Hjump.
      assert (Stack.stack vm1 ≠ []) as Hne.
      { cbn [Stack.exec] in Hexec.
        destruct (Stack.exec_instr j vm1) eqn:Hj; [| done].
        by eapply cond_jump_needs_operand. }
      destruct vm2x as [s2 c2]. cbn [Stack.stack] in Hlenx.
      destruct s2 as [|v s2]; [by destruct (Stack.stack vm1) |].
      rewrite exec_app, (exec_bool_predicate_stmts pid v s2 c2).
      match goal with
      | |- context [Stack.exec _ ?v] =>
          destruct (IH (pid + 1) (EInstr j) vm1 vm' v Hexec Hlenx)
            as (vm2' & ? & ? & Hcalls)
      end.
      exists vm2'. split_and!; [done | done |].
      cbn [Stack.calls] in *. rewrite length_app in Hcalls. cbn in Hcalls. lia.
  - destruct (exec_elem_depth x vm vm1 vm2 Hx Hlen) as (vm2x & Hx2 & Hlenx & Hcallsx).
    change (x :: weave name_is_cond_jump pid e rest)
      with ([x] ++ weave name_is_cond_jump pid e rest).
    rewrite exec_app, Hx2.
    destruct (IH pid e vm1 vm' vm2x Hexec Hlenx) as (vm2' & ? & ? & Hcalls).
    exists vm2'. split_and!; [done | done | lia].
Qed.


